(** * detextify: region geometry, detection score and the detect/in-paint loop

    A shallow embedding of [detextify/utils.py], [detextify/detextifier.py]
    and of the box computation of [detextify/paddle_text_detector.py].

    Conventions of the embedding.
    - Python [int] is [Z] (unbounded on both sides).
    - A Python [float] obtained by dividing two integers is the exact rational
      [Q] with the same numerator and divisor; rounding of the quotient is not
      modelled.  Comparison of floats ([==], [max]) is comparison of the
      rationals ([Qeq_bool], [Qlt_le_dec]).  Where rounding decides what the
      code does, in the ties of the detection score, module [Float64] follows
      the code on doubles instead.
    - A raised exception is the constructor [Raise] of [result]; the
      exceptions the geometry code can raise are listed in [exn].
    - [print] calls of the loop are left out: they touch neither the images
      nor the two capabilities. *)

From Stdlib Require Import ZArith QArith Qminmax Lia Lqa SpecFloat.
From stdpp Require Import base decidable option list strings gmap.

Local Open Scope Z_scope.

(** ** Exceptions and results *)

Inductive result (E A : Type) : Type :=
| Ok (a : A)
| Raise (e : E).

Arguments Ok {E A} a.
Arguments Raise {E A} e.

#[global] Instance result_ret {E} : MRet (result E) := fun A a => Ok a.

#[global] Instance result_bind {E} : MBind (result E) := fun A B k m =>
  match m with
  | Ok a => k a
  | Raise e => Raise e
  end.

(** The built-in exceptions that [utils.py] can raise. *)
Inductive exn : Type :=
| ZeroDivisionError
| ValueError
| IndexError.

(** [[f(x) for x in xs]] for an [f] that may raise: elements are evaluated
    left to right and the first exception ends the comprehension. *)
Fixpoint rmap {E A B : Type} (f : A -> result E B) (xs : list A) : result E (list B) :=
  match xs with
  | [] => Ok []
  | x :: xs' =>
      v ← f x;
      vs ← rmap f xs';
      Ok (v :: vs)
  end.

(** ** utils.py: TextBox *)

Record TextBox : Type := mkTextBox {
  y : Z;
  x : Z;
  h : Z;
  w : Z;
  text : option string
}.

(** The invariant the data model asks of a region. *)
Definition valid_box (b : TextBox) : Prop := 0 <= h b /\ 0 <= w b.

(** ** utils.py: overlap_y, overlap_x, boxes_intersect *)

Definition overlap_y (box1 box2 : TextBox) : Z :=
  Z.min (y box1 + h box1) (y box2 + h box2) - Z.max (y box1) (y box2).

Definition overlap_x (box1 box2 : TextBox) : Z :=
  Z.min (x box1 + w box1) (x box2 + w box2) - Z.max (x box1) (x box2).

Definition boxes_intersect (box1 box2 : TextBox) : bool :=
  (0 <? overlap_x box1 box2) && (0 <? overlap_y box1 box2).

(** ** utils.py: intersection_over_union *)

Definition intersection_area (box1 box2 : TextBox) : Z :=
  let ya := Z.max (y box1) (y box2) in
  let xa := Z.max (x box1) (x box2) in
  let yb := Z.min (y box1 + h box1) (y box2 + h box2) in
  let xb := Z.min (x box1 + w box1) (x box2 + w box2) in
  Z.max 0 (xb - xa + 1) * Z.max 0 (yb - ya + 1).

Definition box_area (b : TextBox) : Z := (h b + 1) * (w b + 1).

(** The divisor [box1_area + box2_area - intersection_area]. *)
Definition union_area (box1 box2 : TextBox) : Z :=
  box_area box1 + box_area box2 - intersection_area box1 box2.

(** Division by [float(0)] raises [ZeroDivisionError]. *)
Definition intersection_over_union (box1 box2 : TextBox) : result exn Q :=
  if Z.eqb (union_area box1 box2) 0 then Raise ZeroDivisionError
  else Ok (inject_Z (intersection_area box1 box2) / inject_Z (union_area box1 box2))%Q.

(** ** utils.py: multi_intersection_over_union *)

(** A [numpy] float: [np.mean] of an empty list is [nan]. *)
Inductive npfloat : Type :=
| Finite (q : Q)
| NaN.

(** The built-in [max] on a list of floats: [ValueError] on the empty list,
    otherwise the first of the greatest elements (an element replaces the
    running maximum only when it is strictly greater). *)
Definition py_max (l : list Q) : result exn Q :=
  match l with
  | [] => Raise ValueError
  | v :: vs => Ok (fold_left (fun m v' => if Qlt_le_dec m v' then v' else m) vs v)
  end.

Definition np_mean (l : list Q) : npfloat :=
  match l with
  | [] => NaN
  | _ => Finite (foldr Qplus 0%Q l / inject_Z (Z.of_nat (length l)))%Q
  end.

(** [for idx, iou in enumerate(ious): if iou == max_iou: matched.add(idx)],
    started at index [idx]. *)
Fixpoint mark_matched (idx : nat) (ious : list Q) (max_iou : Q)
    (matched_golden_boxes : gset nat) : gset nat :=
  match ious with
  | [] => matched_golden_boxes
  | iou :: rest =>
      mark_matched (S idx) rest max_iou
        (if Qeq_bool iou max_iou then {[idx]} ∪ matched_golden_boxes
         else matched_golden_boxes)
  end.

(** The loop over [detected_boxes]; the state is the pair
    [(matched_golden_boxes, max_ious)]. *)
Fixpoint detected_loop (detected_boxes gold_boxes : list TextBox)
    (st : gset nat * list Q) : result exn (gset nat * list Q) :=
  match detected_boxes with
  | [] => Ok st
  | db :: rest =>
      ious ← rmap (intersection_over_union db) gold_boxes;
      max_iou ← py_max ious;
      detected_loop rest gold_boxes
        (mark_matched 0 ious max_iou st.1, st.2 ++ [max_iou])
  end.

(** [for idx in range(n): if idx not in matched: max_ious.append(0.0)]. *)
Definition penalty_loop (n : nat) (matched_golden_boxes : gset nat)
    (max_ious : list Q) : list Q :=
  fold_left
    (fun acc idx => if decide (idx ∈ matched_golden_boxes) then acc else acc ++ [0%Q])
    (seq 0 n) max_ious.

Definition multi_intersection_over_union (detected_boxes gold_boxes : list TextBox)
    : result exn npfloat :=
  st ← detected_loop detected_boxes gold_boxes (∅, []);
  Ok (np_mean (penalty_loop (length gold_boxes) st.1 st.2)).

(** ** The detection score, in the words of its description *)

(** The intersection over union of two regions whose divisor is not zero. *)
Definition iou_value (d g : TextBox) : Q :=
  (inject_Z (intersection_area d g) / inject_Z (union_area d g))%Q.

(** The greatest element of a non-empty list of rationals. *)
Definition q_maximum (l : list Q) : Q :=
  match l with
  | [] => 0%Q
  | v :: vs => foldr Qmax v vs
  end.

(** The maximum IoU of a detected region against all gold regions. *)
Definition best_iou (gold : list TextBox) (d : TextBox) : Q :=
  q_maximum (iou_value d <$> gold).

(** Gold index [j] achieves the maximum IoU of detected region [d]. *)
Definition is_arg_max (gold : list TextBox) (d : TextBox) (j : nat) : bool :=
  match gold !! j with
  | Some g => Qeq_bool (iou_value d g) (best_iou gold d)
  | None => false
  end.

(** The gold indices that are an arg-max of no detected region. *)
Definition unmatched_gold (detected gold : list TextBox) : list nat :=
  filter (fun j => forallb (fun d => negb (is_arg_max gold d j)) detected)
         (seq 0 (length gold)).

(** One best IoU per detected region, then one zero per unmatched gold region. *)
Definition recorded_values (detected gold : list TextBox) : list Q :=
  (best_iou gold <$> detected) ++ replicate (length (unmatched_gold detected gold)) 0%Q.

Definition q_mean (l : list Q) : Q :=
  (foldr Qplus 0 l / inject_Z (Z.of_nat (length l)))%Q.

Definition average_best_iou_spec (detected gold : list TextBox) : Q :=
  q_mean (recorded_values detected gold).

(** [m] is a greatest element of [l], up to equality of rationals. *)
Definition is_maximum (m : Q) (l : list Q) : Prop :=
  (exists u, u ∈ l /\ (u == m)%Q) /\ forall u, u ∈ l -> (u <= m)%Q.

(** ** utils.py: merge_nearby_boxes *)

Definition should_merge (max_distance : Z) (box1 box2 : TextBox) : bool :=
  let y_overlap := overlap_y box1 box2 in
  let x_overlap := overlap_x box1 box2 in
  ((0 <? x_overlap) && (- y_overlap <? max_distance))
  || ((0 <? y_overlap) && (- x_overlap <? max_distance)).

(** The built-ins [min] and [max] on a list of integers. *)
Definition py_min_int (l : list Z) : result exn Z :=
  match l with
  | [] => Raise ValueError
  | v :: vs => Ok (fold_left Z.min vs v)
  end.

Definition py_max_int (l : list Z) : result exn Z :=
  match l with
  | [] => Raise ValueError
  | v :: vs => Ok (fold_left Z.max vs v)
  end.

(** The merged box is built without a [text], so its label is [None]. *)
Definition merge (bs : list TextBox) : result exn TextBox :=
  tl0 ← py_min_int (y <$> bs);
  tl1 ← py_min_int (x <$> bs);
  br0 ← py_max_int ((fun b => y b + h b) <$> bs);
  br1 ← py_max_int ((fun b => x b + w b) <$> bs);
  Ok (mkTextBox tl0 tl1 (br0 - tl0) (br1 - tl1) None).

(** [itertools.compress(data, selectors)]. *)
Fixpoint compress {A : Type} (data : list A) (selectors : list bool) : list A :=
  match data, selectors with
  | d :: data', s :: selectors' =>
      if s then d :: compress data' selectors' else compress data' selectors'
  | _, _ => []
  end.

Definition merge_with_box (max_distance : Z) (ref_box : TextBox)
    (other_boxes : list TextBox) : result exn (list TextBox) :=
  let should_merge_with_ref := should_merge max_distance ref_box <$> other_boxes in
  if Nat.eqb (sum_list (Nat.b2n <$> should_merge_with_ref)) 0
  then Ok ([ref_box] ++ other_boxes)
  else
    let to_merge := compress other_boxes should_merge_with_ref in
    merged_box ← merge ([ref_box] ++ to_merge);
    let should_keep := negb <$> should_merge_with_ref in
    let to_keep := compress other_boxes should_keep in
    Ok ([merged_box] ++ to_keep).

(** The state of the [while] loop: [(curr_boxes, ref_idx)]. *)
Definition merge_state : Type := list TextBox * nat.

Definition loop_cond (st : merge_state) : bool :=
  Z.of_nat st.2 <? Z.of_nat (length st.1) - 1.

(** One pass of the loop body.  The slice handed to [merge_with_box] is
    [curr_boxes[ref_idx:]], which starts with the reference box itself. *)
Definition loop_body (max_distance : Z) (st : merge_state) : result exn merge_state :=
  let curr_boxes := st.1 in
  let ref_idx := st.2 in
  let before := take ref_idx curr_boxes in
  match curr_boxes !! ref_idx with
  | None => Raise IndexError
  | Some ref_box =>
      after ← merge_with_box max_distance ref_box (drop ref_idx curr_boxes);
      let ref_idx' :=
        if Nat.eqb (length before + length after) (length curr_boxes)
        then S ref_idx else ref_idx in
      Ok (before ++ after, ref_idx')
  end.

(** The [while] loop, run for at most [fuel] passes: [None] when the loop
    condition still holds after [fuel] passes. *)
Fixpoint merge_loop (max_distance : Z) (fuel : nat) (st : merge_state)
    : option (result exn (list TextBox)) :=
  if loop_cond st then
    match fuel with
    | O => None
    | S fuel' =>
        match loop_body max_distance st with
        | Raise e => Some (Raise e)
        | Ok st' => merge_loop max_distance fuel' st'
        end
    end
  else Some (Ok st.1).

Definition merge_nearby_boxes (fuel : nat) (boxes : list TextBox) (max_distance : Z)
    : option (result exn (list TextBox)) :=
  if (length boxes <=? 1)%nat then Some (Ok boxes)
  else merge_loop max_distance fuel (boxes, O).

(** The loop state after [n] passes, whatever the loop condition says. *)
Fixpoint passes (max_distance : Z) (n : nat) (st : merge_state) : result exn merge_state :=
  match n with
  | O => Ok st
  | S n' => st' ← loop_body max_distance st; passes max_distance n' st'
  end.

(** ** Results of merging a pair of boxes *)

(** The smallest rectangle that encloses two boxes; it carries no label. *)
Definition enclosing (a b : TextBox) : TextBox :=
  mkTextBox (Z.min (y a) (y b)) (Z.min (x a) (x b))
            (Z.max (y a + h a) (y b + h b) - Z.min (y a) (y b))
            (Z.max (x a + w a) (x b + w b) - Z.min (x a) (x b)) None.

(** A box with its label removed. *)
Definition unlabelled (a : TextBox) : TextBox :=
  mkTextBox (y a) (x a) (h a) (w a) None.

(** ** detextifier.py: Detextifier.detextify *)

Module Detextifier.
Section Detextify.

(** Images, the exceptions of the two capabilities, and the state the
    capabilities may read and change from one call to the next. *)
Context {Image Exn World : Type}.

(** [self.text_detector.detect_text] and [self.inpainter.inpaint]. *)
Variable detect_text : Image -> World -> result Exn (list TextBox) * World.
Variable inpaint : Image -> list TextBox -> string -> World -> result Exn Image * World.

(** The calls made to the two capabilities, with their arguments. *)
Inductive call : Type :=
| DetectCall (image : Image)
| InpaintCall (image : Image) (text_boxes : list TextBox) (prompt : string).

Definition is_detect (c : call) : bool :=
  match c with DetectCall _ => true | InpaintCall _ _ _ => false end.

Definition is_inpaint (c : call) : bool :=
  match c with DetectCall _ => false | InpaintCall _ _ _ => true end.

Definition detect_calls (tr : list call) : nat := length (filter is_detect tr).
Definition inpaint_calls (tr : list call) : nat := length (filter is_inpaint tr).

(** How the loop was left. *)
Inductive exit : Type :=
| Break        (* [if not text_boxes: break] *)
| Exhausted    (* [range(max_retries)] ran out *)
| Raised.      (* an exception of a capability passed through *)

Record outcome : Type := mkOutcome {
  returned : result Exn Image;
  left_by : exit;
  final_world : World;
  calls : list call
}.

(** The [for i in range(max_retries)] loop with [n] iterations left. *)
Fixpoint detextify_loop (n : nat) (out_image : Image) (prompt : string)
    (wd : World) (tr : list call) : outcome :=
  match n with
  | O => mkOutcome (Ok out_image) Exhausted wd tr
  | S n' =>
      let '(r, wd1) := detect_text out_image wd in
      let tr1 := tr ++ [DetectCall out_image] in
      match r with
      | Raise e => mkOutcome (Raise e) Raised wd1 tr1
      | Ok [] => mkOutcome (Ok out_image) Break wd1 tr1
      | Ok text_boxes =>
          let '(r', wd2) := inpaint out_image text_boxes prompt wd1 in
          let tr2 := tr1 ++ [InpaintCall out_image text_boxes prompt] in
          match r' with
          | Raise e => mkOutcome (Raise e) Raised wd2 tr2
          | Ok out_image' => detextify_loop n' out_image' prompt wd2 tr2
          end
      end
  end.

(** [in_image.copy()] has the contents of [in_image]. *)
Definition detextify (in_image : Image) (prompt : string) (max_retries : Z)
    (wd : World) : outcome :=
  detextify_loop (Z.to_nat max_retries) in_image prompt wd [].

End Detextify.
End Detextifier.

(** *** Stub capabilities to run the loop on *)

(** A detector stub that finds one box as long as the image number is below
    2, and an in-painter stub that returns the next image number. *)
Definition stub_detect (img : nat) (wd : nat) : result unit (list TextBox) * nat :=
  (if (img <? 2)%nat then Ok [mkTextBox 0 0 5 5 None] else Ok [], S wd).

Definition stub_inpaint (img : nat) (_ : list TextBox) (_ : string) (wd : nat)
    : result unit nat * nat :=
  (Ok (S img), S wd).

(** ** Rectangles: containment and equality of geometry *)

(** [r] encloses [b]: every edge of [b] lies within [r]. *)
Definition encloses (r b : TextBox) : Prop :=
  y r <= y b /\ x r <= x b /\ y b + h b <= y r + h r /\ x b + w b <= x r + w r.

(** The two boxes are the same rectangle (their labels may differ). *)
Definition same_rectangle (a b : TextBox) : Prop :=
  y a = y b /\ x a = x b /\ h a = h b /\ w a = w b.

(** ** paddle_text_detector.py: PaddleTextDetector.detect_text

    The call [self.ocr.ocr(image, cls=True)[0]] and [image.shape[:2]] are
    inputs of the model: the list of recognised lines, each a polygon (a list
    of points with float coordinates) and a text, and the height and width of
    the image.  Float coordinates are exact rationals. *)

Module Paddle.

(** The module binds [paddle_logger] to the value of [setLevel], which is
    [None]; [paddle_logger.error] is then an [AttributeError]. *)
Inductive error : Type :=
| Builtin (e : exn)
| AttributeError.

Definition lift {A : Type} (r : result exn A) : result error A :=
  match r with
  | Ok a => Ok a
  | Raise e => Raise (Builtin e)
  end.

(** The built-in [min] on a list of floats: the first of the least elements. *)
Definition py_min (l : list Q) : result exn Q :=
  match l with
  | [] => Raise ValueError
  | v :: vs => Ok (fold_left (fun m v' => if Qlt_le_dec v' m then v' else m) vs v)
  end.

(** [max(a, b)] and [min(a, b)] of two numbers: the first argument unless the
    second is strictly greater (smaller). *)
Definition py_max2 (a b : Q) : Q := if Qlt_le_dec a b then b else a.
Definition py_min2 (a b : Q) : Q := if Qlt_le_dec b a then b else a.

(** [int(q)] truncates towards zero. *)
Definition py_int (q : Q) : Z := Z.quot (Qnum q) (Zpos (Qden q)).

(** One element of the OCR result: [line[0]] is the polygon, a list of points
    [(point[0], point[1])], and [line[1][0]] is the text. *)
Definition line : Type := list (Q * Q) * string.

(** The body of the loop over the lines. *)
Definition box_of_line (pad_size image_height image_width : Z) (ln : line)
    : result error TextBox :=
  let points := ln.1 in
  let text := ln.2 in
  let ys := fst <$> points in
  let xs := snd <$> points in
  tl_y ← lift (py_min ys);
  tl_x ← lift (py_min xs);
  max_y ← lift (py_max ys);
  max_x ← lift (py_max xs);
  let h := (max_y - tl_y)%Q in
  let w := (max_x - tl_x)%Q in
  if Qlt_le_dec h 0 then Raise AttributeError
  else if Qlt_le_dec w 0 then Raise AttributeError
  else
    if Z.eqb pad_size 0
    then Ok (mkTextBox (py_int tl_y) (py_int tl_x) (py_int h) (py_int w) (Some text))
    else
      let tl_y' := py_max2 0 (tl_y - inject_Z pad_size) in
      let tl_x' := py_max2 0 (tl_x - inject_Z pad_size) in
      let h' := py_min2 (h + inject_Z pad_size) (inject_Z image_height - tl_y') in
      let w' := py_min2 (w + inject_Z pad_size) (inject_Z image_width - tl_x') in
      Ok (mkTextBox (py_int tl_y') (py_int tl_x') (py_int h') (py_int w') (Some text)).

Definition detect_text (pad_size image_height image_width : Z) (ocr_result : list line)
    : result error (list TextBox) :=
  rmap (box_of_line pad_size image_height image_width) ocr_result.


(** *** Vocabulary for the facts about [detect_text] *)

(** The least and the greatest element of a list. *)
Definition least (m : Q) (l : list Q) : Prop := m ∈ l /\ forall u, u ∈ l -> (m <= u)%Q.
Definition greatest (m : Q) (l : list Q) : Prop := m ∈ l /\ forall u, u ∈ l -> (u <= m)%Q.

(** The box built for a line with [pad_size = 0], and with another
    [pad_size], from the bounds of its polygon. *)
Definition plain_box (tl_y tl_x max_y max_x : Q) (txt : string) : TextBox :=
  mkTextBox (py_int tl_y) (py_int tl_x)
            (py_int (max_y - tl_y)) (py_int (max_x - tl_x)) (Some txt).

Definition padded_box (pad_size image_height image_width : Z)
    (tl_y tl_x max_y max_x : Q) (txt : string) : TextBox :=
  let tl_y' := py_max2 0 (tl_y - inject_Z pad_size) in
  let tl_x' := py_max2 0 (tl_x - inject_Z pad_size) in
  mkTextBox (py_int tl_y') (py_int tl_x')
            (py_int (py_min2 (max_y - tl_y + inject_Z pad_size)
                             (inject_Z image_height - tl_y')))
            (py_int (py_min2 (max_x - tl_x + inject_Z pad_size)
                             (inject_Z image_width - tl_x')))
            (Some txt).

(** Every point of the polygon has [0 <= point[0] <= image_height] and
    [0 <= point[1] <= image_width], the pairing that the clamping code uses. *)
Definition polygon_inside (image_height image_width : Z) (ln : line) : Prop :=
  Forall (fun pt : Q * Q =>
            (0 <= pt.1)%Q /\ (pt.1 <= inject_Z image_height)%Q /\
            (0 <= pt.2)%Q /\ (pt.2 <= inject_Z image_width)%Q) ln.1.

(** The box lies within the image and has nonnegative height and width. *)
Definition box_inside (image_height image_width : Z) (b : TextBox) : Prop :=
  valid_box b /\ 0 <= y b /\ 0 <= x b /\
  y b + h b <= image_height /\ x b + w b <= image_width.

(** The polygon has the integer bounds [y0 <= point[0] <= y1] and
    [x0 <= point[1] <= x1], and reaches each of them. *)
Definition integer_bounds (pts : list (Q * Q)) (y0 y1 x0 x1 : Z) : Prop :=
  Forall (fun pt : Q * Q =>
            (inject_Z y0 <= pt.1)%Q /\ (pt.1 <= inject_Z y1)%Q /\
            (inject_Z x0 <= pt.2)%Q /\ (pt.2 <= inject_Z x1)%Q) pts /\
  Exists (fun pt : Q * Q => (pt.1 == inject_Z y0)%Q) pts /\
  Exists (fun pt : Q * Q => (pt.1 == inject_Z y1)%Q) pts /\
  Exists (fun pt : Q * Q => (pt.2 == inject_Z x0)%Q) pts /\
  Exists (fun pt : Q * Q => (pt.2 == inject_Z x1)%Q) pts.

(** An OCR result with two lines, in an image of 100 by 200 pixels. *)
Definition sample_result : list line :=
  [([(10 # 1, 20 # 1); (10 # 1, 60 # 1); (30 # 1, 60 # 1); (30 # 1, 20 # 1)]%Q,
    "Hello"%string);
   ([(41 # 2, 20 # 1); (83 # 2, 161 # 2)]%Q, "world"%string)].

End Paddle.

(** ** utils.py with IEEE doubles: the detection score

    [multi_intersection_over_union] compares IoUs with [==] and [max]; two
    different quotients can round to the same double, and the code then sees
    a tie.  This module follows the code on binary64 values ([spec_float]
    with 53 bits of precision): the conversion of an [int] rounds to nearest
    even, and the division, [>] and [==] are those of the doubles.
    [np.mean] is a function of [numpy]; it is a parameter of the model. *)

Module Float64.

Definition float : Type := spec_float.
Definition prec : Z := 53.
Definition emax : Z := 1024.

(** [0.0], [1.0] and [0.5]. *)
Definition zero : float := S754_zero false.

Inductive error : Type :=
| Builtin (e : exn)
| OverflowError.

(** The conversion of an [int] to a double, by [float(z)] or as the operand
    of a float division: [OverflowError] when the rounded value would exceed
    the largest double. *)
Definition float_of_int (z : Z) : result error float :=
  if Z.abs z <? 2 ^ 1024 - 2 ^ 970
  then Ok (binary_normalize prec emax z 0 false)
  else Raise OverflowError.

(** [intersection_area / float(box1_area + box2_area - intersection_area)]:
    the divisor is converted first, then the dividend, then the division
    checks for a zero divisor. *)
Definition intersection_over_union (box1 box2 : TextBox) : result error float :=
  divisor ← float_of_int (union_area box1 box2);
  dividend ← float_of_int (intersection_area box1 box2);
  if SFeqb divisor zero then Raise (Builtin ZeroDivisionError)
  else Ok (SFdiv prec emax dividend divisor).

(** The loop of the built-in [max]: an item replaces the running maximum
    when it is greater. *)
Definition maximum_from (v : float) (vs : list float) : float :=
  fold_left (fun m v' => if SFltb m v' then v' else m) vs v.

Definition py_max (l : list float) : result error float :=
  match l with
  | [] => Raise (Builtin ValueError)
  | v :: vs => Ok (maximum_from v vs)
  end.

Fixpoint mark_matched (idx : nat) (ious : list float) (max_iou : float)
    (matched_golden_boxes : gset nat) : gset nat :=
  match ious with
  | [] => matched_golden_boxes
  | iou :: rest =>
      mark_matched (S idx) rest max_iou
        (if SFeqb iou max_iou then {[idx]} ∪ matched_golden_boxes
         else matched_golden_boxes)
  end.

Fixpoint detected_loop (detected_boxes gold_boxes : list TextBox)
    (st : gset nat * list float) : result error (gset nat * list float) :=
  match detected_boxes with
  | [] => Ok st
  | db :: rest =>
      ious ← rmap (intersection_over_union db) gold_boxes;
      max_iou ← py_max ious;
      detected_loop rest gold_boxes
        (mark_matched 0 ious max_iou st.1, st.2 ++ [max_iou])
  end.

Definition penalty_loop (n : nat) (matched_golden_boxes : gset nat)
    (max_ious : list float) : list float :=
  fold_left
    (fun acc idx => if decide (idx ∈ matched_golden_boxes) then acc else acc ++ [zero])
    (seq 0 n) max_ious.

Definition multi_intersection_over_union (np_mean : list float -> float)
    (detected_boxes gold_boxes : list TextBox) : result error float :=
  st ← detected_loop detected_boxes gold_boxes (∅, []);
  Ok (np_mean (penalty_loop (length gold_boxes) st.1 st.2)).

(** *** The score in the words of its description *)

(** The IoU of two regions, when it is computed. *)
Definition iou_value (d g : TextBox) : float :=
  match intersection_over_union d g with
  | Ok v => v
  | Raise _ => S754_nan
  end.

(** The maximum IoU of a detected region against all gold regions. *)
Definition best_iou (gold : list TextBox) (d : TextBox) : float :=
  match iou_value d <$> gold with
  | [] => S754_nan
  | v :: vs => maximum_from v vs
  end.

(** Gold index [j] achieves the maximum IoU of detected region [d]. *)
Definition is_arg_max (gold : list TextBox) (d : TextBox) (j : nat) : bool :=
  match gold !! j with
  | Some g => SFeqb (iou_value d g) (best_iou gold d)
  | None => false
  end.

(** The gold indices that are an arg-max of no detected region. *)
Definition unmatched_gold (detected gold : list TextBox) : list nat :=
  filter (fun j => forallb (fun d => negb (is_arg_max gold d j)) detected)
         (seq 0 (length gold)).

(** One best IoU per detected region, then one [0.0] per unmatched gold
    region. *)
Definition recorded_values (detected gold : list TextBox) : list float :=
  (best_iou gold <$> detected) ++ replicate (length (unmatched_gold detected gold)) zero.


End Float64.

(** ** Geometry: basic facts *)

Section Geometry.

Lemma intersection_area_overlap box1 box2 :
  intersection_area box1 box2 =
  Z.max 0 (overlap_x box1 box2 + 1) * Z.max 0 (overlap_y box1 box2 + 1).
Proof. reflexivity. Qed.

Lemma intersection_area_nonneg box1 box2 : 0 <= intersection_area box1 box2.
Proof. unfold intersection_area. apply Z.mul_nonneg_nonneg; lia. Qed.

Lemma intersection_area_comm box1 box2 :
  intersection_area box1 box2 = intersection_area box2 box1.
Proof.
  unfold intersection_area.
  rewrite (Z.max_comm (y box1)), (Z.max_comm (x box1)).
  rewrite (Z.min_comm (y box1 + h box1)), (Z.min_comm (x box1 + w box1)).
  reflexivity.
Qed.

Lemma union_area_comm box1 box2 : union_area box1 box2 = union_area box2 box1.
Proof.
  unfold union_area. rewrite (intersection_area_comm box1 box2). lia.
Qed.

Lemma box_area_pos b : valid_box b -> 1 <= box_area b.
Proof. intros [Hh Hw]. unfold box_area. nia. Qed.

(** The intersection never exceeds the first box (and, by symmetry, the
    second one). *)
Lemma intersection_area_le_l box1 box2 :
  valid_box box1 -> intersection_area box1 box2 <= box_area box1.
Proof.
  intros [Hh Hw]. unfold intersection_area, box_area.
  rewrite (Z.mul_comm (h box1 + 1)).
  apply Z.mul_le_mono_nonneg; lia.
Qed.

Lemma intersection_area_le_r box1 box2 :
  valid_box box2 -> intersection_area box1 box2 <= box_area box2.
Proof.
  intros Hv. rewrite intersection_area_comm. by apply intersection_area_le_l.
Qed.

Lemma union_area_pos box1 box2 :
  valid_box box1 -> valid_box box2 -> 0 < union_area box1 box2.
Proof.
  intros H1 H2. unfold union_area.
  pose proof (intersection_area_le_l box1 box2 H1).
  pose proof (box_area_pos box2 H2). lia.
Qed.

Lemma intersection_le_union box1 box2 :
  valid_box box1 -> valid_box box2 ->
  intersection_area box1 box2 <= union_area box1 box2.
Proof.
  intros H1 H2. unfold union_area.
  pose proof (intersection_area_le_l box1 box2 H1).
  pose proof (intersection_area_le_r box1 box2 H2). lia.
Qed.

Lemma intersection_over_union_valid box1 box2 :
  valid_box box1 -> valid_box box2 ->
  intersection_over_union box1 box2 =
  Ok (inject_Z (intersection_area box1 box2) / inject_Z (union_area box1 box2))%Q.
Proof.
  intros H1 H2. unfold intersection_over_union.
  pose proof (union_area_pos box1 box2 H1 H2).
  destruct (Z.eqb_spec (union_area box1 box2) 0); [lia | done].
Qed.

(** A quotient of integers with a positive divisor. *)
Lemma Qdiv_inject_nonneg n d : 0 <= n -> 0 < d -> (0 <= inject_Z n / inject_Z d)%Q.
Proof.
  intros Hn Hd. apply Qle_shift_div_l.
  - change 0%Q with (inject_Z 0). by rewrite <- Zlt_Qlt.
  - rewrite Qmult_0_l. change 0%Q with (inject_Z 0). by rewrite <- Zle_Qle.
Qed.

Lemma Qdiv_inject_le_1 n d : n <= d -> 0 < d -> (inject_Z n / inject_Z d <= 1)%Q.
Proof.
  intros Hn Hd. apply Qle_shift_div_r.
  - change 0%Q with (inject_Z 0). by rewrite <- Zlt_Qlt.
  - rewrite Qmult_1_l. by rewrite <- Zle_Qle.
Qed.

Lemma Qdiv_inject_zero n d : d <> 0 -> (inject_Z n / inject_Z d == 0)%Q <-> n = 0.
Proof.
  intros Hd. unfold Qdiv, Qeq, Qmult, Qinv, inject_Z. simpl.
  destruct d as [|p|p]; [done | |]; simpl; lia.
Qed.

End Geometry.

(** ** Touching and disjoint regions *)

(** Claim C1, as amended.  For regions with nonnegative height and width whose
    overlap is zero or negative on both axes, [boxes_intersect] is [False] and
    [intersection_over_union] returns a value that is [0] exactly when the
    overlap is strictly negative on at least one axis; when both overlaps are
    exactly zero (the regions touch at a corner) the inclusive pixel count
    gives an intersection of one pixel and the value
    [1 / (area a + area b - 1)], which is positive. *)
Theorem touching_regions_iou (a b : TextBox) :
  valid_box a -> valid_box b ->
  overlap_x a b <= 0 -> overlap_y a b <= 0 ->
  boxes_intersect a b = false /\
  exists q : Q,
    intersection_over_union a b = Ok q /\
    ((q == 0)%Q <-> (overlap_x a b < 0 \/ overlap_y a b < 0)) /\
    (overlap_x a b = 0 -> overlap_y a b = 0 ->
     q = (inject_Z 1 / inject_Z (box_area a + box_area b - 1))%Q /\ (0 < q)%Q).
Proof.
  intros Ha Hb Hx Hy. split.
  { unfold boxes_intersect. destruct (Z.ltb_spec 0 (overlap_x a b)); [lia | done]. }
  exists (inject_Z (intersection_area a b) / inject_Z (union_area a b))%Q.
  pose proof (union_area_pos a b Ha Hb) as Hpos.
  split; [by apply intersection_over_union_valid |].
  split.
  - rewrite Qdiv_inject_zero by lia.
    rewrite intersection_area_overlap. split.
    + intros Hz. apply Z.mul_eq_0 in Hz. lia.
    + intros [Hlt | Hlt]; [rewrite (Z.max_l 0 (overlap_x a b + 1)) by lia
                          | rewrite (Z.max_l 0 (overlap_y a b + 1)) by lia]; lia.
  - intros Hx0 Hy0.
    assert (Hi : intersection_area a b = 1).
    { rewrite intersection_area_overlap, Hx0, Hy0. reflexivity. }
    unfold union_area in *. rewrite Hi in *. split; [reflexivity |].
    apply Qlt_shift_div_l.
    + change 0%Q with (inject_Z 0). by rewrite <- Zlt_Qlt.
    + rewrite Qmult_0_l. reflexivity.
Qed.

Lemma touching_regions_iou_witness :
  let a := mkTextBox 0 0 5 5 None in
  let b := mkTextBox 5 9 5 5 None in
  boxes_intersect a b = false /\
  exists q : Q,
    intersection_over_union a b = Ok q /\
    ((q == 0)%Q <-> (overlap_x a b < 0 \/ overlap_y a b < 0)) /\
    (overlap_x a b = 0 -> overlap_y a b = 0 ->
     q = (inject_Z 1 / inject_Z (box_area a + box_area b - 1))%Q /\ (0 < q)%Q).
Proof.
  intros a b.
  apply (touching_regions_iou a b); unfold valid_box; vm_compute; try split; congruence.
Defined.

(** Claim C1 as stated fails: two 5 by 5 regions that touch at one corner have
    zero overlap on both axes, yet their intersection over union is [1/71]. *)
Lemma touching_regions_iou_not_zero :
  ~ (forall a b : TextBox,
       valid_box a -> valid_box b ->
       overlap_x a b <= 0 -> overlap_y a b <= 0 ->
       boxes_intersect a b = false /\
       exists q : Q, intersection_over_union a b = Ok q /\ (q == 0)%Q).
Proof.
  intros Hclaim.
  destruct (Hclaim (mkTextBox 0 0 5 5 None) (mkTextBox 5 5 5 5 None))
    as [_ (q & Hq & Hz)]; try (unfold valid_box; vm_compute; try split; congruence).
  vm_compute in Hq. injection Hq as <-. vm_compute in Hz. discriminate.
Qed.

(** ** The value of intersection over union *)

(** Claim C8.  For regions with nonnegative height and width the divisor
    [area a + area b - intersection] is strictly positive, so the division is
    defined, and the quotient, as an exact rational, is the inclusive
    intersection over that divisor and lies between 0 and 1. *)
Theorem intersection_over_union_range (a b : TextBox) :
  valid_box a -> valid_box b ->
  let ya := Z.max (y a) (y b) in
  let xa := Z.max (x a) (x b) in
  let yb := Z.min (y a + h a) (y b + h b) in
  let xb := Z.min (x a + w a) (x b + w b) in
  let inter := Z.max 0 (xb - xa + 1) * Z.max 0 (yb - ya + 1) in
  let divisor := (h a + 1) * (w a + 1) + (h b + 1) * (w b + 1) - inter in
  0 < divisor /\
  exists q : Q,
    intersection_over_union a b = Ok q /\
    q = (inject_Z inter / inject_Z divisor)%Q /\
    (0 <= q)%Q /\ (q <= 1)%Q.
Proof.
  intros Ha Hb ya xa yb xb inter divisor.
  change inter with (intersection_area a b).
  change divisor with (union_area a b).
  pose proof (union_area_pos a b Ha Hb) as Hpos.
  split; [done |].
  eexists. split; [by apply intersection_over_union_valid |].
  split; [reflexivity |]. split.
  - apply Qdiv_inject_nonneg; [apply intersection_area_nonneg | done].
  - apply Qdiv_inject_le_1; [by apply intersection_le_union | done].
Qed.

Lemma intersection_over_union_range_witness :
  let a := mkTextBox 0 0 4 6 None in
  let b := mkTextBox 2 3 4 6 None in
  0 < (4 + 1) * (6 + 1) + (4 + 1) * (6 + 1) - 4 * 3 /\
  exists q : Q,
    intersection_over_union a b = Ok q /\
    q = (inject_Z 12 / inject_Z 58)%Q /\ (0 <= q)%Q /\ (q <= 1)%Q.
Proof.
  intros a b.
  apply (intersection_over_union_range a b); unfold valid_box; vm_compute; try split; congruence.
Defined.

(** Claim C9.  [intersection_over_union] is symmetric in its two arguments,
    for all regions: the two calls return the same value, or both divide
    by zero. *)
Theorem intersection_over_union_comm (a b : TextBox) :
  intersection_over_union a b = intersection_over_union b a.
Proof.
  unfold intersection_over_union.
  by rewrite (union_area_comm a b), (intersection_area_comm a b).
Qed.

(** ** The detect/in-paint loop *)

Module DetextifierFacts.
Import Detextifier.

Section Loop.

Context {Image Exn World : Type}.
Variable detect_text : Image -> World -> result Exn (list TextBox) * World.
Variable inpaint : Image -> list TextBox -> string -> World -> result Exn Image * World.

Let loop := detextify_loop detect_text inpaint.

(** One equation per way through the loop body. *)
Lemma loop_detect_raises n img p wd tr e wd1 :
  detect_text img wd = (Raise e, wd1) ->
  loop (S n) img p wd tr = mkOutcome (Raise e) Raised wd1 (tr ++ [DetectCall img]).
Proof. intros Hd. unfold loop. simpl. by rewrite Hd. Qed.

Lemma loop_break n img p wd tr wd1 :
  detect_text img wd = (Ok [], wd1) ->
  loop (S n) img p wd tr = mkOutcome (Ok img) Break wd1 (tr ++ [DetectCall img]).
Proof. intros Hd. unfold loop. simpl. by rewrite Hd. Qed.

Lemma loop_inpaint_raises n img p wd tr bs wd1 e wd2 :
  detect_text img wd = (Ok bs, wd1) -> bs <> [] ->
  inpaint img bs p wd1 = (Raise e, wd2) ->
  loop (S n) img p wd tr =
  mkOutcome (Raise e) Raised wd2 (tr ++ [DetectCall img; InpaintCall img bs p]).
Proof.
  intros Hd Hne Hi. unfold loop. simpl. rewrite Hd.
  destruct bs as [|b bs]; [done |]. rewrite Hi.
  by rewrite <- app_assoc.
Qed.

Lemma loop_continue n img p wd tr bs wd1 img' wd2 :
  detect_text img wd = (Ok bs, wd1) -> bs <> [] ->
  inpaint img bs p wd1 = (Ok img', wd2) ->
  loop (S n) img p wd tr =
  loop n img' p wd2 (tr ++ [DetectCall img; InpaintCall img bs p]).
Proof.
  intros Hd Hne Hi. unfold loop. simpl. rewrite Hd.
  destruct bs as [|b bs]; [done |]. rewrite Hi.
  by rewrite <- app_assoc.
Qed.

Lemma to_nat_succ (z : Z) : 1 <= z -> Z.to_nat z = S (Z.to_nat (z - 1)).
Proof. lia. Qed.

End Loop.

(** Claim C5.  With [max_retries >= 1], a detector that returns the empty list
    on the first call makes [detextify] return the input image, leaving the
    loop through [break], after one detector call and no in-painter call. *)
Theorem detextify_no_text {Image Exn World : Type}
    (detect_text : Image -> World -> result Exn (list TextBox) * World)
    (inpaint : Image -> list TextBox -> string -> World -> result Exn Image * World)
    (in_image : Image) (prompt : string) (max_retries : Z) (wd wd1 : World) :
  1 <= max_retries ->
  detect_text in_image wd = (Ok [], wd1) ->
  let o := detextify detect_text inpaint in_image prompt max_retries wd in
  returned o = Ok in_image /\
  left_by o = Break /\
  calls o = [DetectCall in_image] /\
  detect_calls (calls o) = 1%nat /\
  inpaint_calls (calls o) = 0%nat.
Proof.
  intros Hm Hd o. subst o. unfold detextify.
  rewrite (to_nat_succ _ Hm), (loop_break _ _ _ _ _ _ _ _ Hd).
  by repeat split.
Qed.

Lemma detextify_no_text_witness :
  let detect_text := fun (img : nat) (wd : unit) => (@Ok unit _ (@nil TextBox), wd) in
  let inpaint := fun (img : nat) (_ : list TextBox) (_ : string) (wd : unit) =>
                   (@Ok unit _ (S img), wd) in
  let o := detextify detect_text inpaint 7%nat "remove text"%string 5 tt in
  returned o = Ok 7%nat /\
  left_by o = Break /\
  calls o = [DetectCall 7%nat] /\
  detect_calls (calls o) = 1%nat /\
  inpaint_calls (calls o) = 0%nat.
Proof.
  intros detect_text inpaint.
  apply (detextify_no_text detect_text inpaint 7%nat "remove text"%string 5 tt tt);
    [lia | reflexivity].
Defined.

(** Claim C6.  With [max_retries = 3], a detector that returns a non-empty
    list on every call and an in-painter that returns on every call,
    [detextify] makes three detector calls and three in-painter calls, leaves
    the loop because the range is exhausted, and returns the image of the
    third in-painter call; every call receives the image returned by the
    in-painter call before it (the first ones receive the input image). *)
Theorem detextify_budget_exhausted {Image Exn World : Type}
    (detect_text : Image -> World -> result Exn (list TextBox) * World)
    (inpaint : Image -> list TextBox -> string -> World -> result Exn Image * World)
    (in_image : Image) (prompt : string) (wd : World) :
  (forall img w, exists bs w', detect_text img w = (Ok bs, w') /\ bs <> []) ->
  (forall img bs p w, exists img' w', inpaint img bs p w = (Ok img', w')) ->
  exists bs0 bs1 bs2 img1 img2 img3 w1 w2 w3 w4 w5 w6,
    detect_text in_image wd = (Ok bs0, w1) /\ bs0 <> [] /\
    inpaint in_image bs0 prompt w1 = (Ok img1, w2) /\
    detect_text img1 w2 = (Ok bs1, w3) /\ bs1 <> [] /\
    inpaint img1 bs1 prompt w3 = (Ok img2, w4) /\
    detect_text img2 w4 = (Ok bs2, w5) /\ bs2 <> [] /\
    inpaint img2 bs2 prompt w5 = (Ok img3, w6) /\
    let o := detextify detect_text inpaint in_image prompt 3 wd in
    returned o = Ok img3 /\
    left_by o = Exhausted /\
    final_world o = w6 /\
    calls o = [DetectCall in_image; InpaintCall in_image bs0 prompt;
               DetectCall img1; InpaintCall img1 bs1 prompt;
               DetectCall img2; InpaintCall img2 bs2 prompt] /\
    detect_calls (calls o) = 3%nat /\
    inpaint_calls (calls o) = 3%nat.
Proof.
  intros Hdet Hinp.
  destruct (Hdet in_image wd) as (bs0 & w1 & Hd0 & Hn0).
  destruct (Hinp in_image bs0 prompt w1) as (img1 & w2 & Hi0).
  destruct (Hdet img1 w2) as (bs1 & w3 & Hd1 & Hn1).
  destruct (Hinp img1 bs1 prompt w3) as (img2 & w4 & Hi1).
  destruct (Hdet img2 w4) as (bs2 & w5 & Hd2 & Hn2).
  destruct (Hinp img2 bs2 prompt w5) as (img3 & w6 & Hi2).
  exists bs0, bs1, bs2, img1, img2, img3, w1, w2, w3, w4, w5, w6.
  repeat (split; [done |]).
  intros o. subst o. unfold detextify.
  change (Z.to_nat 3) with 3%nat.
  rewrite (loop_continue _ _ _ _ _ _ _ _ _ _ _ Hd0 Hn0 Hi0).
  rewrite (loop_continue _ _ _ _ _ _ _ _ _ _ _ Hd1 Hn1 Hi1).
  rewrite (loop_continue _ _ _ _ _ _ _ _ _ _ _ Hd2 Hn2 Hi2).
  by repeat split.
Qed.

Lemma detextify_budget_exhausted_witness :
  let box := mkTextBox 0 0 5 5 None in
  let detect_text := fun (img : nat) (wd : nat) => (@Ok unit _ [box], S wd) in
  let inpaint := fun (img : nat) (_ : list TextBox) (_ : string) (wd : nat) =>
                   (@Ok unit _ (img + 10)%nat, S wd) in
  let o := detextify detect_text inpaint 7%nat "remove text"%string 3 0%nat in
  exists img3 : nat,
    returned o = Ok img3 /\
    left_by o = Exhausted /\
    detect_calls (calls o) = 3%nat /\
    inpaint_calls (calls o) = 3%nat.
Proof.
  intros box detect_text inpaint.
  destruct (detextify_budget_exhausted detect_text inpaint 7%nat "remove text"%string 0%nat)
    as (bs0 & bs1 & bs2 & img1 & img2 & img3 & w1 & w2 & w3 & w4 & w5 & w6 &
        _ & _ & _ & _ & _ & _ & _ & _ & _ & Hr & Hl & _ & _ & Hd & Hi).
  - intros img w. exists [box], (S w). split; [reflexivity | discriminate].
  - intros img bs p w. exists (img + 10)%nat, (S w). reflexivity.
  - intros o. exists img3. exact (conj Hr (conj Hl (conj Hd Hi))).
Defined.

(** Claim C7.  [detextify] has no handler around the two capability calls: in
    any iteration an exception of the detector or of the in-painter ends the
    loop with that exception and no call after the one that raised.  When the
    in-painter raises on its first call, the exception reaches the caller after
    one detector call and one in-painter call. *)
Theorem detextify_propagates {Image Exn World : Type}
    (detect_text : Image -> World -> result Exn (list TextBox) * World)
    (inpaint : Image -> list TextBox -> string -> World -> result Exn Image * World) :
  (forall n img p wd tr e wd1,
     detect_text img wd = (Raise e, wd1) ->
     detextify_loop detect_text inpaint (S n) img p wd tr =
     mkOutcome (Raise e) Raised wd1 (tr ++ [DetectCall img])) /\
  (forall n img p wd tr bs wd1 e wd2,
     detect_text img wd = (Ok bs, wd1) -> bs <> [] ->
     inpaint img bs p wd1 = (Raise e, wd2) ->
     detextify_loop detect_text inpaint (S n) img p wd tr =
     mkOutcome (Raise e) Raised wd2 (tr ++ [DetectCall img; InpaintCall img bs p])) /\
  (forall in_image prompt max_retries wd bs wd1 e wd2,
     1 <= max_retries ->
     detect_text in_image wd = (Ok bs, wd1) -> bs <> [] ->
     inpaint in_image bs prompt wd1 = (Raise e, wd2) ->
     let o := detextify detect_text inpaint in_image prompt max_retries wd in
     returned o = Raise e /\
     left_by o = Raised /\
     final_world o = wd2 /\
     calls o = [DetectCall in_image; InpaintCall in_image bs prompt] /\
     detect_calls (calls o) = 1%nat /\
     inpaint_calls (calls o) = 1%nat).
Proof.
  split; [| split].
  - intros. by apply loop_detect_raises.
  - intros. by eapply loop_inpaint_raises.
  - intros in_image prompt max_retries wd bs wd1 e wd2 Hm Hd Hne Hi o.
    subst o. unfold detextify.
    rewrite (to_nat_succ _ Hm).
    rewrite (loop_inpaint_raises _ _ _ _ _ _ _ _ _ _ _ Hd Hne Hi).
    by repeat split.
Qed.

Lemma detextify_propagates_witness :
  let box := mkTextBox 0 0 5 5 None in
  let detect_text := fun (img : nat) (wd : nat) => (@Ok string _ [box], S wd) in
  let inpaint := fun (img : nat) (_ : list TextBox) (_ : string) (wd : nat) =>
                   (@Raise string nat "model failed"%string, S wd) in
  let o := detextify detect_text inpaint 7%nat "remove text"%string 5 0%nat in
  returned o = Raise "model failed"%string /\
  left_by o = Raised /\
  final_world o = 2%nat /\
  calls o = [DetectCall 7%nat; InpaintCall 7%nat [box] "remove text"%string] /\
  detect_calls (calls o) = 1%nat /\
  inpaint_calls (calls o) = 1%nat.
Proof.
  intros box detect_text inpaint.
  destruct (detextify_propagates detect_text inpaint) as (_ & _ & Hfirst).
  apply (Hfirst 7%nat "remove text"%string 5 0%nat [box] 1%nat "model failed"%string 2%nat);
    [lia | reflexivity | discriminate | reflexivity].
Defined.

End DetextifierFacts.


(** ** Merging nearby boxes *)

Section Merge.

Variable max_distance : Z.

Lemma overlap_x_self a : overlap_x a a = w a.
Proof. unfold overlap_x. lia. Qed.

Lemma overlap_y_self a : overlap_y a a = h a.
Proof. unfold overlap_y. lia. Qed.

Lemma overlap_x_le_w a b : overlap_x a b <= w a.
Proof. unfold overlap_x. lia. Qed.

Lemma overlap_y_le_h a b : overlap_y a b <= h a.
Proof. unfold overlap_y. lia. Qed.

Lemma should_merge_true box1 box2 :
  should_merge max_distance box1 box2 = true <->
  (0 < overlap_x box1 box2 /\ - overlap_y box1 box2 < max_distance) \/
  (0 < overlap_y box1 box2 /\ - overlap_x box1 box2 < max_distance).
Proof.
  unfold should_merge.
  rewrite orb_true_iff, !andb_true_iff, !Z.ltb_lt. reflexivity.
Qed.

(** A box that merges with some box also merges with itself: no box
    overlaps the reference box more than the reference box does. *)
Lemma should_merge_self a b :
  should_merge max_distance a b = true -> should_merge max_distance a a = true.
Proof.
  rewrite !should_merge_true, overlap_x_self, overlap_y_self.
  pose proof (overlap_x_le_w a b). pose proof (overlap_y_le_h a b). lia.
Qed.

Lemma not_self_merge_none a bs :
  should_merge max_distance a a = false ->
  Forall (fun b => should_merge max_distance a b = false) bs.
Proof.
  intros Hself. apply Forall_forall. intros b _.
  destruct (should_merge max_distance a b) eqn:Hab; [| done].
  apply should_merge_self in Hab. congruence.
Qed.

Lemma sum_b2n_all_false {A} (f : A -> bool) (l : list A) :
  Forall (fun b => f b = false) l -> sum_list (Nat.b2n <$> (f <$> l)) = 0%nat.
Proof.
  induction 1 as [|b l Hb _ IH]; [done |].
  rewrite !fmap_cons, Hb. exact IH.
Qed.

Lemma merge_with_box_none ref_box other_boxes :
  Forall (fun b => should_merge max_distance ref_box b = false) other_boxes ->
  merge_with_box max_distance ref_box other_boxes = Ok (ref_box :: other_boxes).
Proof.
  intros Hnone. unfold merge_with_box.
  by rewrite (sum_b2n_all_false _ _ Hnone).
Qed.

(** A pass whose reference box does not merge with itself puts a second copy
    of the reference box into the sequence and keeps the index. *)
Lemma loop_body_duplicates pre ref_box rest :
  should_merge max_distance ref_box ref_box = false ->
  loop_body max_distance (pre ++ ref_box :: rest, length pre) =
  Ok (pre ++ ref_box :: ref_box :: rest, length pre).
Proof.
  intros Hself. unfold loop_body. simpl.
  rewrite list_lookup_middle by done.
  rewrite drop_app_length, take_app_length.
  rewrite merge_with_box_none by by apply not_self_merge_none.
  simpl. rewrite !length_app. simpl.
  destruct (Nat.eqb_spec (length pre + S (S (length rest))) (length pre + S (length rest)));
    [lia | done].
Qed.

Lemma loop_cond_middle {pre : list TextBox} {ref_box rest} :
  rest <> [] -> loop_cond (pre ++ ref_box :: rest, length pre) = true.
Proof.
  intros Hne. unfold loop_cond. simpl. rewrite length_app. simpl.
  destruct rest; [done |]. simpl. apply Z.ltb_lt. lia.
Qed.

(** Hence the loop never ends on such a state, whatever the fuel. *)
Lemma merge_loop_diverges pre ref_box :
  should_merge max_distance ref_box ref_box = false ->
  forall fuel rest, rest <> [] ->
  merge_loop max_distance fuel (pre ++ ref_box :: rest, length pre) = None.
Proof.
  intros Hself. induction fuel as [|fuel IH]; intros rest Hne.
  - simpl merge_loop. by rewrite (loop_cond_middle Hne).
  - simpl merge_loop. rewrite (loop_cond_middle Hne).
    rewrite (loop_body_duplicates _ _ _ Hself). by apply IH.
Qed.

Lemma merge_nearby_boxes_diverges ref_box rest fuel :
  should_merge max_distance ref_box ref_box = false -> rest <> [] ->
  merge_nearby_boxes fuel (ref_box :: rest) max_distance = None.
Proof.
  intros Hself Hne. unfold merge_nearby_boxes.
  destruct rest as [|b rest]; [done |]. simpl.
  by apply (merge_loop_diverges [] ref_box Hself).
Qed.

Lemma passes_duplicates ref_box rest n :
  should_merge max_distance ref_box ref_box = false ->
  passes max_distance n (ref_box :: rest, O) = Ok (replicate n ref_box ++ ref_box :: rest, O).
Proof.
  intros Hself. revert rest. induction n as [|n IH]; intros rest; [done |].
  pose proof (loop_body_duplicates [] ref_box rest Hself) as Hbody.
  simpl in Hbody. simpl passes. rewrite Hbody. simpl.
  rewrite IH. f_equal. f_equal.
  clear. induction n as [|n IHn]; [done |]. simpl. by rewrite IHn.
Qed.

Lemma merge_ref_ref a : merge [a; a] = Ok (unlabelled a).
Proof.
  unfold merge, unlabelled. simpl. rewrite !Z.min_id, !Z.max_id.
  f_equal. f_equal; lia.
Qed.

Lemma merge_ref_ref_other a b : merge [a; a; b] = Ok (enclosing a b).
Proof.
  unfold merge, enclosing. simpl. by rewrite !Z.min_id, !Z.max_id.
Qed.

(** Two boxes whose first one merges with itself: the pair is merged into its
    enclosing rectangle exactly when the merge predicate holds of it, and
    otherwise comes back with the label of the first box removed. *)
Lemma merge_nearby_boxes_pair a b fuel :
  should_merge max_distance a a = true ->
  merge_nearby_boxes (S fuel) [a; b] max_distance =
  Some (Ok (if should_merge max_distance a b then [enclosing a b]
            else [unlabelled a; b])).
Proof.
  intros Hself. unfold merge_nearby_boxes. simpl.
  unfold loop_cond, loop_body, merge_with_box. simpl.
  rewrite Hself. destruct (should_merge max_distance a b) eqn:Hab; simpl.
  - rewrite !Z.min_id, !Z.max_id. simpl.
    destruct fuel; done.
  - rewrite !Z.min_id, !Z.max_id. simpl.
    replace (y a + h a - y a) with (h a) by lia.
    replace (x a + w a - x a) with (w a) by lia.
    destruct fuel; done.
Qed.

(** *** When every box merges with itself, the loop ends *)

Lemma fold_left_min_le vs v : fold_left Z.min vs v <= v.
Proof.
  revert v. induction vs as [|v' vs IH]; intros v; simpl; [lia |].
  specialize (IH (Z.min v v')). lia.
Qed.

Lemma fold_left_max_ge vs v : v <= fold_left Z.max vs v.
Proof.
  revert v. induction vs as [|v' vs IH]; intros v; simpl; [lia |].
  specialize (IH (Z.max v v')). lia.
Qed.

(** The merged box is at least as high and as wide as the first box. *)
Lemma merge_cons ref_box bs :
  exists m, merge (ref_box :: bs) = Ok m /\ h ref_box <= h m /\ w ref_box <= w m.
Proof.
  unfold merge. rewrite !fmap_cons. simpl. eexists. split; [reflexivity |]. simpl.
  pose proof (fold_left_min_le (y <$> bs) (y ref_box)).
  pose proof (fold_left_min_le (x <$> bs) (x ref_box)).
  pose proof (fold_left_max_ge ((fun b => y b + h b) <$> bs) (y ref_box + h ref_box)).
  pose proof (fold_left_max_ge ((fun b => x b + w b) <$> bs) (x ref_box + w ref_box)).
  lia.
Qed.

Lemma self_merge_mono a m :
  h a <= h m -> w a <= w m ->
  should_merge max_distance a a = true -> should_merge max_distance m m = true.
Proof.
  rewrite !should_merge_true, !overlap_x_self, !overlap_y_self. lia.
Qed.

Lemma compress_Forall {A} (P : A -> Prop) (l : list A) (sel : list bool) :
  Forall P l -> Forall P (compress l sel).
Proof.
  intros Hl. revert sel. induction Hl as [|a l Ha _ IH]; intros sel; [done |].
  destruct sel as [|[] sel]; simpl; [constructor | by constructor | done].
Qed.

Lemma compress_keep_length {A} (f : A -> bool) (l : list A) :
  (length (compress l (negb <$> (f <$> l))) + sum_list (Nat.b2n <$> (f <$> l)))%nat
  = length l.
Proof.
  induction l as [|a l IH]; [done |].
  rewrite !fmap_cons. simpl. destruct (f a); simpl; lia.
Qed.

(** A pass whose reference box merges with itself: the sequence keeps its
    length and the index advances, or the sequence gets shorter. *)
Lemma loop_body_self_merge pre ref_box rest :
  Forall (fun b => should_merge max_distance b b = true) (pre ++ ref_box :: rest) ->
  exists curr' idx',
    loop_body max_distance (pre ++ ref_box :: rest, length pre) = Ok (curr', idx') /\
    Forall (fun b => should_merge max_distance b b = true) curr' /\
    ((length curr' = length (pre ++ ref_box :: rest) /\ idx' = S (length pre)) \/
     (length curr' < length (pre ++ ref_box :: rest) /\ idx' = length pre))%nat.
Proof.
  intros Hall.
  apply Forall_app in Hall as [Hpre Hrest].
  apply Forall_cons in Hrest as [Hself Hrest].
  unfold loop_body. cbn [fst snd].
  rewrite list_lookup_middle by done.
  rewrite drop_app_length, take_app_length.
  unfold merge_with_box. rewrite !fmap_cons, Hself.
  cbn [Nat.b2n sum_list sum_list_with Nat.add Nat.eqb negb compress app].
  destruct (merge_cons ref_box (ref_box ::
              compress rest (should_merge max_distance ref_box <$> rest)))
    as (m & Hm & Hh & Hw).
  rewrite Hm. cbn [mbind result_bind].
  pose proof (compress_keep_length (should_merge max_distance ref_box) rest) as Hlen.
  set (to_keep := compress rest (negb <$> (should_merge max_distance ref_box <$> rest))) in *.
  do 2 eexists. split; [reflexivity |]. split.
  - apply Forall_app. split; [done |]. constructor.
    + by apply (self_merge_mono ref_box).
    + by apply compress_Forall.
  - rewrite !length_app. simpl.
    destruct (Nat.eqb_spec (length pre + S (length to_keep))
                           (length pre + S (length rest))); [left | right]; lia.
Qed.

Lemma merge_loop_terminates :
  forall fuel curr idx,
    Forall (fun b => should_merge max_distance b b = true) curr ->
    (2 * length curr - idx <= fuel)%nat ->
    exists res, merge_loop max_distance fuel (curr, idx) = Some (Ok res).
Proof.
  induction fuel as [|fuel IH]; intros curr idx Hall Hfuel.
  - exists curr. simpl. unfold loop_cond. simpl.
    destruct (Z.ltb_spec (Z.of_nat idx) (Z.of_nat (length curr) - 1)); [lia | done].
  - simpl. unfold loop_cond. simpl.
    destruct (Z.ltb_spec (Z.of_nat idx) (Z.of_nat (length curr) - 1)) as [Hlt |];
      [| by exists curr].
    assert (Hidx : (idx < length curr)%nat) by lia.
    destruct (lookup_lt_is_Some_2 curr idx Hidx) as [ref_box Href].
    pose proof (take_drop_middle curr idx ref_box Href) as Hsplit.
    assert (Hpre : length (take idx curr) = idx) by (rewrite length_take; lia).
    rewrite <- Hsplit in Hall.
    destruct (loop_body_self_merge _ _ _ Hall) as (curr' & idx' & Hbody & Hall' & Hcase).
    rewrite Hpre, Hsplit in Hbody. rewrite Hbody.
    rewrite Hpre, Hsplit in Hcase.
    apply IH; [done |]. lia.
Qed.

(** [merge_nearby_boxes] returns, after at most [2 * len(boxes)] passes, on
    every sequence whose boxes all merge with themselves. *)
Lemma merge_nearby_boxes_terminates boxes :
  Forall (fun b => should_merge max_distance b b = true) boxes ->
  exists res, merge_nearby_boxes (2 * length boxes) boxes max_distance = Some (Ok res).
Proof.
  intros Hall. unfold merge_nearby_boxes.
  destruct (length boxes <=? 1)%nat; [by exists boxes |].
  apply merge_loop_terminates; [done | lia].
Qed.

End Merge.

(** Claim C3, evaluated on the code.  Two regions of zero height and width
    that are far apart do not satisfy the merge predicate, yet
    [merge_nearby_boxes] does not return them: the reference box is part of
    the slice it is compared with, it does not merge with itself, and every
    pass puts one more copy of it into the sequence, so no number of passes
    ends the loop.  When the first region merges with itself but not with the
    second, both come back, the first without its label. *)
Theorem merge_nearby_boxes_pair_no_result :
  let a := mkTextBox 0 0 0 0 None in
  let b := mkTextBox 100 100 0 0 None in
  should_merge 5 a b = false /\
  (forall fuel, merge_nearby_boxes fuel [a; b] 5 = None) /\
  merge_nearby_boxes 1 [mkTextBox 0 0 5 5 (Some "A"%string);
                        mkTextBox 0 18 5 5 (Some "B"%string)] 5 =
  Some (Ok [mkTextBox 0 0 5 5 None; mkTextBox 0 18 5 5 (Some "B"%string)]).
Proof.
  intros a b. split; [reflexivity |]. split; [| reflexivity].
  intros fuel. by apply merge_nearby_boxes_diverges.
Qed.

(** Claim C4, evaluated on the code.  On two regions of zero height and width
    a pass at reference index 0 neither keeps nor reduces the length of the
    sequence: after [n] passes the sequence has [n + 2] elements, the
    reference index is still 0 and the loop condition still holds, so the
    loop does not end. *)
Theorem merge_nearby_boxes_pass_grows :
  let a := mkTextBox 0 0 0 0 None in
  let b := mkTextBox 100 100 0 0 None in
  forall n : nat,
    passes 5 n ([a; b], O) = Ok (replicate n a ++ [a; b], O) /\
    length (replicate n a ++ [a; b]) = (n + 2)%nat /\
    loop_cond (replicate n a ++ [a; b], O) = true /\
    merge_nearby_boxes n [a; b] 5 = None.
Proof.
  intros a b n. split; [| split; [| split]].
  - by apply passes_duplicates.
  - rewrite length_app, length_replicate. reflexivity.
  - unfold loop_cond. simpl. rewrite length_app, length_replicate. simpl.
    apply Z.ltb_lt. lia.
  - by apply merge_nearby_boxes_diverges.
Qed.

(** ** The detection score: the code against its description *)

Section Score.

Lemma is_maximum_unique m1 m2 l : is_maximum m1 l -> is_maximum m2 l -> (m1 == m2)%Q.
Proof.
  intros [(u1 & Hu1 & He1) Hle1] [(u2 & Hu2 & He2) Hle2].
  apply Qle_antisym.
  - rewrite <- He1. by apply Hle2.
  - rewrite <- He2. by apply Hle1.
Qed.

Lemma fold_left_max_is_maximum vs v :
  is_maximum (fold_left (fun m v' => if Qlt_le_dec m v' then v' else m) vs v) (v :: vs).
Proof.
  revert v. induction vs as [|v' vs IH]; intros v.
  - simpl. split.
    + exists v. split; [apply list_elem_of_here | reflexivity].
    + intros u Hu. apply list_elem_of_singleton in Hu as ->. apply Qle_refl.
  - simpl. destruct (Qlt_le_dec v v') as [Hlt | Hle].
    + destruct (IH v') as [(u & Hu & He) Hmax]. split.
      * exists u. split; [by apply list_elem_of_further | done].
      * intros u' Hu'. apply elem_of_cons in Hu' as [-> | Hu'].
        -- apply Qle_trans with v'; [by apply Qlt_le_weak |].
           apply Hmax, list_elem_of_here.
        -- by apply Hmax.
    + destruct (IH v) as [(u & Hu & He) Hmax]. split.
      * exists u. split; [| done].
        apply elem_of_cons in Hu as [-> | Hu];
          [apply list_elem_of_here | by do 2 apply list_elem_of_further].
      * intros u' Hu'. apply elem_of_cons in Hu' as [-> | Hu'].
        -- apply Hmax, list_elem_of_here.
        -- apply elem_of_cons in Hu' as [-> | Hu'].
           ++ apply Qle_trans with v; [done | apply Hmax, list_elem_of_here].
           ++ by apply Hmax, list_elem_of_further.
Qed.

Lemma py_max_is_maximum v vs :
  exists m, py_max (v :: vs) = Ok m /\ is_maximum m (v :: vs).
Proof. eexists. split; [reflexivity | apply fold_left_max_is_maximum]. Qed.

Lemma q_maximum_is_maximum v vs : is_maximum (q_maximum (v :: vs)) (v :: vs).
Proof.
  simpl. induction vs as [|v' vs IH].
  - simpl. split.
    + exists v. split; [apply list_elem_of_here | reflexivity].
    + intros u Hu. apply list_elem_of_singleton in Hu as ->. apply Qle_refl.
  - simpl. destruct IH as [(u & Hu & He) Hmax]. split.
    + destruct (Q.max_dec v' (foldr Qmax v vs)) as [Hl | Hr].
      * exists v'. split; [apply list_elem_of_further, list_elem_of_here | by symmetry].
      * exists u. split.
        -- apply elem_of_cons in Hu as [-> | Hu];
             [apply list_elem_of_here | by do 2 apply list_elem_of_further].
        -- by rewrite He, Hr.
    + intros u' Hu'. apply elem_of_cons in Hu' as [-> | Hu'].
      * apply Qle_trans with (foldr Qmax v vs);
          [apply Hmax, list_elem_of_here | apply Q.le_max_r].
      * apply elem_of_cons in Hu' as [-> | Hu'].
        -- apply Q.le_max_l.
        -- apply Qle_trans with (foldr Qmax v vs);
             [by apply Hmax, list_elem_of_further | apply Q.le_max_r].
Qed.

Lemma rmap_iou_valid d gold :
  valid_box d -> Forall valid_box gold ->
  rmap (intersection_over_union d) gold = Ok (iou_value d <$> gold).
Proof.
  intros Hd. induction 1 as [|g gold Hg _ IH]; [done |].
  simpl. rewrite (intersection_over_union_valid d g Hd Hg), IH. reflexivity.
Qed.

Lemma Qeq_bool_proper_r u m m' : (m == m')%Q -> Qeq_bool u m = Qeq_bool u m'.
Proof.
  intros Hm. destruct (Qeq_bool u m') eqn:H'.
  - apply Qeq_bool_iff. apply Qeq_bool_iff in H'. by rewrite Hm.
  - destruct (Qeq_bool u m) eqn:H; [| done].
    apply Qeq_bool_iff in H. rewrite Hm in H. apply Qeq_bool_iff in H. congruence.
Qed.

(** The indices added by the [enumerate] loop. *)
Lemma elem_of_mark_matched ious m :
  forall idx (matched : gset nat) j,
    j ∈ mark_matched idx ious m matched <->
    j ∈ matched \/
    exists i u, j = (idx + i)%nat /\ ious !! i = Some u /\ Qeq_bool u m = true.
Proof.
  induction ious as [|iou rest IH]; intros idx matched j; simpl.
  - split; [by left |]. intros [H | (i & u & _ & Hl & _)]; [done | by destruct i].
  - rewrite IH. split.
    + intros [Hin | (i & u & -> & Hl & Hu)].
      * destruct (Qeq_bool iou m) eqn:He; [| by left].
        apply elem_of_union in Hin as [Hin | Hin]; [| by left].
        apply elem_of_singleton in Hin as ->.
        right. exists O, iou. split; [lia | done].
      * right. exists (S i), u. split; [lia | done].
    + intros [Hin | (i & u & -> & Hl & Hu)].
      * left. destruct (Qeq_bool iou m); [| done].
        apply elem_of_union. by right.
      * destruct i as [|i]; simpl in Hl.
        -- injection Hl as ->. rewrite Hu. left.
           apply elem_of_union. left. apply elem_of_singleton. lia.
        -- right. exists i, u. split; [lia | done].
Qed.

Lemma is_arg_max_lookup gold d m j :
  (m == best_iou gold d)%Q ->
  (exists i u, j = (0 + i)%nat /\ (iou_value d <$> gold) !! i = Some u /\
               Qeq_bool u m = true) <->
  is_arg_max gold d j = true.
Proof.
  intros Hm. unfold is_arg_max. split.
  - intros (i & u & -> & Hl & Hu). simpl.
    rewrite list_lookup_fmap in Hl.
    destruct (gold !! i) as [g|]; [| done].
    injection Hl as <-. by rewrite <- (Qeq_bool_proper_r _ _ _ Hm).
  - intros Hj. destruct (gold !! j) as [g|] eqn:Hg; [| done].
    exists j, (iou_value d g). split; [done |]. split.
    + by rewrite list_lookup_fmap, Hg.
    + by rewrite (Qeq_bool_proper_r _ _ _ Hm).
Qed.

Lemma detected_loop_cons d rest gold st ious m :
  rmap (intersection_over_union d) gold = Ok ious ->
  py_max ious = Ok m ->
  detected_loop (d :: rest) gold st =
  detected_loop rest gold (mark_matched 0 ious m st.1, st.2 ++ [m]).
Proof. intros Hr Hm. simpl. rewrite Hr. simpl. by rewrite Hm. Qed.

(** The loop over the detected regions records one best IoU per region and
    marks every gold index that is an arg-max of some region. *)
Lemma detected_loop_spec gold :
  gold <> [] -> Forall valid_box gold ->
  forall detected, Forall valid_box detected ->
  forall (matched : gset nat) (l : list Q),
  exists (matched' : gset nat) (ms : list Q),
    detected_loop detected gold (matched, l) = Ok (matched', l ++ ms) /\
    Forall2 Qeq ms (best_iou gold <$> detected) /\
    forall j, j ∈ matched' <->
              j ∈ matched \/ exists d, d ∈ detected /\ is_arg_max gold d j = true.
Proof.
  intros Hne Hgold. induction 1 as [|d detected Hd _ IH]; intros matched l.
  - exists matched, []. simpl. rewrite app_nil_r.
    split; [done |]. split; [constructor |].
    intros j. split; [by left |]. intros [H | (d & Hin & _)]; [done |].
    by apply elem_of_nil in Hin.
  - destruct gold as [|g gs]; [done |].
    destruct (py_max_is_maximum (iou_value d g) (iou_value d <$> gs)) as (m & Hpm & Hmax).
    rewrite (detected_loop_cons d detected (g :: gs) _ _ m
               (rmap_iou_valid d (g :: gs) Hd Hgold) Hpm).
    cbn [fst snd].
    assert (Hm : (m == best_iou (g :: gs) d)%Q).
    { eapply is_maximum_unique; [exact Hmax |].
      unfold best_iou. rewrite fmap_cons. apply q_maximum_is_maximum. }
    destruct (IH (mark_matched 0 (iou_value d <$> g :: gs) m matched)
                 (l ++ [m])) as (matched' & ms & Hloop & Hms & Hin).
    exists matched', (m :: ms). split; [| split].
    + rewrite Hloop. by rewrite <- app_assoc.
    + rewrite fmap_cons. by constructor.
    + intros j. rewrite Hin, elem_of_mark_matched.
      rewrite (is_arg_max_lookup (g :: gs) d m j Hm).
      split.
      * intros [[H | H] | (d' & Hd' & Ha)]; [by left | |].
        -- right. exists d. split; [apply list_elem_of_here | done].
        -- right. exists d'. split; [by apply list_elem_of_further | done].
      * intros [H | (d' & Hd' & Ha)]; [by left; left |].
        apply elem_of_cons in Hd' as [-> | Hd'].
        -- left. by right.
        -- right. by exists d'.
Qed.

(** The second loop appends one zero per index that was not marked. *)
Lemma penalty_fold (matched : gset nat) (js : list nat) :
  forall l : list Q,
    fold_left (fun acc idx => if decide (idx ∈ matched) then acc else acc ++ [0%Q]) js l =
    l ++ replicate (length (filter (fun j => j ∉ matched) js)) 0%Q.
Proof.
  induction js as [|j js IH]; intros l; simpl.
  - by rewrite app_nil_r.
  - rewrite IH. destruct (decide (j ∈ matched)) as [Hin | Hout].
    + rewrite filter_cons_False by (intros H; by apply H). done.
    + rewrite filter_cons_True by done. simpl. by rewrite <- app_assoc.
Qed.

Lemma unmatched_gold_filter (matched : gset nat) detected gold :
  (forall j, j ∈ matched <-> exists d, d ∈ detected /\ is_arg_max gold d j = true) ->
  filter (fun j => j ∉ matched) (seq 0 (length gold)) = unmatched_gold detected gold.
Proof.
  intros Hin. unfold unmatched_gold. apply list_filter_iff. intros j.
  rewrite Hin. split.
  - intros Hno. apply Is_true_true, forallb_forall. intros d Hd.
    destruct (is_arg_max gold d j) eqn:Ha; [| done].
    exfalso. apply Hno. exists d. split; [by apply list_elem_of_In | done].
  - intros Hall (d & Hd & Ha). apply Is_true_true in Hall.
    rewrite forallb_forall in Hall. specialize (Hall d).
    rewrite Ha in Hall. apply list_elem_of_In in Hd. by specialize (Hall Hd).
Qed.

Lemma q_sum_proper l l' : Forall2 Qeq l l' -> (foldr Qplus 0 l == foldr Qplus 0 l')%Q.
Proof.
  induction 1 as [|u u' l l' Hu _ IH]; [reflexivity |].
  simpl. by rewrite Hu, IH.
Qed.

Lemma q_mean_proper l l' : Forall2 Qeq l l' -> (q_mean l == q_mean l')%Q.
Proof.
  intros Hl. unfold q_mean.
  rewrite (q_sum_proper l l' Hl), (Forall2_length _ _ _ Hl). reflexivity.
Qed.

Lemma np_mean_nonempty l : l <> [] -> np_mean l = Finite (q_mean l).
Proof. by destruct l. Qed.

Lemma Forall2_Qeq_refl l : Forall2 Qeq l l.
Proof. induction l; constructor; [reflexivity | done]. Qed.

(** With exact rationals for the IoUs, the two loops compute the mean of the
    recorded values. *)
Lemma multi_intersection_over_union_spec detected gold :
  detected <> [] -> gold <> [] ->
  Forall valid_box detected -> Forall valid_box gold ->
  exists q : Q,
    multi_intersection_over_union detected gold = Ok (Finite q) /\
    (q == average_best_iou_spec detected gold)%Q.
Proof.
  intros Hd Hg Hvd Hvg.
  destruct (detected_loop_spec gold Hg Hvg detected Hvd ∅ [])
    as (matched & ms & Hloop & Hms & Hin).
  unfold multi_intersection_over_union. rewrite Hloop. simpl.
  unfold penalty_loop. rewrite penalty_fold.
  rewrite (unmatched_gold_filter matched detected gold).
  2:{ intros j. rewrite Hin. split; [| by right].
      intros [H | H]; [by apply not_elem_of_empty in H | done]. }
  rewrite np_mean_nonempty.
  2:{ destruct detected; [done |]. by inversion Hms. }
  eexists. split; [reflexivity |].
  unfold average_best_iou_spec, recorded_values.
  apply q_mean_proper, Forall2_app; [done | apply Forall2_Qeq_refl].
Qed.

Lemma iou_value_self r : valid_box r -> (iou_value r r == 1)%Q.
Proof.
  intros Hr. unfold iou_value.
  assert (Hi : intersection_area r r = box_area r).
  { destruct Hr. unfold intersection_area, box_area. nia. }
  assert (Hu : union_area r r = box_area r).
  { unfold union_area. rewrite Hi. lia. }
  rewrite Hi, Hu. apply Qmult_inv_r.
  pose proof (box_area_pos r Hr).
  intros H0. unfold Qeq, inject_Z in H0. simpl in H0. lia.
Qed.

Lemma is_arg_max_same r : is_arg_max [r] r 0 = true.
Proof.
  change (is_arg_max [r] r 0) with (Qeq_bool (iou_value r r) (iou_value r r)).
  apply Qeq_bool_refl.
Qed.

Lemma unmatched_gold_same r : unmatched_gold [r] [r] = [].
Proof.
  unfold unmatched_gold. cbn [length seq].
  rewrite filter_cons_False; [done |].
  cbn [forallb]. rewrite is_arg_max_same. simpl. by intros [].
Qed.

Lemma average_best_iou_spec_same r : valid_box r -> (average_best_iou_spec [r] [r] == 1)%Q.
Proof.
  intros Hr. unfold average_best_iou_spec, recorded_values.
  rewrite unmatched_gold_same.
  change (q_mean _) with ((iou_value r r + 0) / inject_Z 1)%Q.
  rewrite (iou_value_self r Hr). reflexivity.
Qed.

End Score.

(** Claim C10.  With a non-empty list of detected regions and an empty list
    of gold regions the score is not computed: [max] of the empty list of
    IoUs raises [ValueError].  So a score is returned only when the gold list
    is non-empty or the detected list is empty. *)
Theorem multi_intersection_over_union_empty_gold :
  (forall (d : TextBox) (ds : list TextBox),
     multi_intersection_over_union (d :: ds) [] = Raise ValueError) /\
  (forall (detected gold : list TextBox) (v : npfloat),
     multi_intersection_over_union detected gold = Ok v ->
     gold <> [] \/ detected = []).
Proof.
  split.
  - intros d ds. reflexivity.
  - intros detected gold v Hv.
    destruct gold as [|g gold]; [| by left].
    destruct detected as [|d ds]; [by right | discriminate].
Qed.

Lemma multi_intersection_over_union_empty_gold_witness :
  let r := mkTextBox 0 0 10 10 None in
  multi_intersection_over_union [r] [] = Raise ValueError /\
  ([r] <> [] \/ [r] = []).
Proof.
  intros r. split.
  - apply (proj1 multi_intersection_over_union_empty_gold r []).
  - apply (proj2 multi_intersection_over_union_empty_gold [r] [r]
             (Finite (121 # 121))).
    vm_compute. reflexivity.
Defined.

(** ** Further facts about the geometry *)

Section GeometryMore.

Lemma overlap_x_comm a b : overlap_x a b = overlap_x b a.
Proof. unfold overlap_x. lia. Qed.

Lemma overlap_y_comm a b : overlap_y a b = overlap_y b a.
Proof. unfold overlap_y. lia. Qed.

Lemma Qdiv_inject_pos n d : 0 < n -> 0 < d -> (0 < inject_Z n / inject_Z d)%Q.
Proof.
  intros Hn Hd. apply Qlt_shift_div_l.
  - change 0%Q with (inject_Z 0). by rewrite <- Zlt_Qlt.
  - rewrite Qmult_0_l. change 0%Q with (inject_Z 0). by rewrite <- Zlt_Qlt.
Qed.

Lemma Qdiv_inject_one n d : d <> 0 -> (inject_Z n / inject_Z d == 1)%Q <-> n = d.
Proof.
  intros Hd. unfold Qdiv, Qeq, Qmult, Qinv, inject_Z. simpl.
  destruct d as [|p|p]; [done | |]; simpl; lia.
Qed.

Lemma same_rectangle_areas a b :
  same_rectangle a b ->
  intersection_area a b = intersection_area a a /\ box_area b = box_area a.
Proof.
  intros (Hy & Hx & Hh & Hw). unfold intersection_area, box_area.
  by rewrite <- Hy, <- Hx, <- Hh, <- Hw.
Qed.

Lemma intersection_area_self a : valid_box a -> intersection_area a a = box_area a.
Proof. intros [Hh Hw]. unfold intersection_area, box_area. nia. Qed.

(** Two factors below their bounds whose product reaches the product of the
    bounds are at their bounds. *)
Lemma product_at_bounds p q a b :
  0 <= p <= a -> 0 <= q <= b -> 0 < a -> 0 < b -> p * q = a * b -> p = a /\ q = b.
Proof. intros Hp Hq Ha Hb He. nia. Qed.

Lemma full_intersection_overlaps a b :
  valid_box a -> intersection_area a b = box_area a ->
  overlap_x a b = w a /\ overlap_y a b = h a.
Proof.
  intros [Hh Hw] He. rewrite intersection_area_overlap in He. unfold box_area in He.
  pose proof (overlap_x_le_w a b). pose proof (overlap_y_le_h a b).
  rewrite (Z.mul_comm (h a + 1)) in He.
  apply product_at_bounds in He; lia.
Qed.

End GeometryMore.

(** [overlap_x], [overlap_y], [boxes_intersect] and the merge predicate
    [should_merge] do not depend on the order of the two boxes. *)
Theorem overlap_predicates_comm (max_distance : Z) (a b : TextBox) :
  overlap_x a b = overlap_x b a /\
  overlap_y a b = overlap_y b a /\
  boxes_intersect a b = boxes_intersect b a /\
  should_merge max_distance a b = should_merge max_distance b a.
Proof.
  unfold boxes_intersect, should_merge.
  rewrite (overlap_x_comm a b), (overlap_y_comm a b). done.
Qed.

(** For boxes with nonnegative height and width, [intersection_over_union] is
    1 exactly when the two boxes are the same rectangle. *)
Theorem intersection_over_union_one_iff (a b : TextBox) :
  valid_box a -> valid_box b ->
  (exists q : Q, intersection_over_union a b = Ok q /\ (q == 1)%Q) <->
  same_rectangle a b.
Proof.
  intros Ha Hb.
  pose proof (union_area_pos a b Ha Hb) as Hpos.
  assert (Hne : union_area a b <> 0) by lia.
  rewrite (intersection_over_union_valid a b Ha Hb). split.
  - intros (q & Hq & H1). injection Hq as <-.
    apply (Qdiv_inject_one _ _ Hne) in H1.
    pose proof (intersection_area_le_l a b Ha) as Hl.
    pose proof (intersection_area_le_r a b Hb) as Hr.
    unfold union_area in H1.
    destruct (full_intersection_overlaps a b Ha) as [Hxa Hya]; [lia |].
    destruct (full_intersection_overlaps b a Hb) as [Hxb Hyb];
      [rewrite intersection_area_comm; lia |].
    rewrite overlap_x_comm in Hxb. rewrite overlap_y_comm in Hyb.
    destruct Ha, Hb. unfold same_rectangle, overlap_x, overlap_y in *. lia.
  - intros Hs. eexists. split; [reflexivity |].
    apply (Qdiv_inject_one _ _ Hne).
    destruct (same_rectangle_areas a b Hs) as [Hi Hbx].
    unfold union_area. rewrite Hi, Hbx, (intersection_area_self a Ha). lia.
Qed.

Lemma intersection_over_union_one_iff_witness :
  let a := mkTextBox 2 3 10 4 (Some "total"%string) in
  let b := mkTextBox 2 3 10 4 None in
  (exists q : Q, intersection_over_union a b = Ok q /\ (q == 1)%Q) <->
  same_rectangle a b.
Proof.
  intros a b.
  apply (intersection_over_union_one_iff a b); unfold valid_box; vm_compute; split; congruence.
Defined.

(** [intersection_over_union] depends neither on the labels nor on where the
    pair of boxes lies: moving both boxes by the same offsets gives the same
    value, or the same exception. *)
Theorem intersection_over_union_translate (dy dx : Z) (ta tb : option string)
    (a b : TextBox) :
  intersection_over_union (mkTextBox (y a + dy) (x a + dx) (h a) (w a) ta)
                          (mkTextBox (y b + dy) (x b + dx) (h b) (w b) tb)
  = intersection_over_union a b.
Proof.
  unfold intersection_over_union, union_area, box_area, intersection_area. simpl.
  replace (Z.min (x a + dx + w a) (x b + dx + w b) - Z.max (x a + dx) (x b + dx) + 1)
    with (Z.min (x a + w a) (x b + w b) - Z.max (x a) (x b) + 1) by lia.
  replace (Z.min (y a + dy + h a) (y b + dy + h b) - Z.max (y a + dy) (y b + dy) + 1)
    with (Z.min (y a + h a) (y b + h b) - Z.max (y a) (y b) + 1) by lia.
  reflexivity.
Qed.

(** Two boxes that each have a side of [-1] (so that their inclusive area is
    zero) make [intersection_over_union] divide by zero. *)
Theorem intersection_over_union_zero_divisor (a b : TextBox) :
  h a = -1 \/ w a = -1 ->
  h b = -1 \/ w b = -1 ->
  intersection_over_union a b = Raise ZeroDivisionError.
Proof.
  intros Ha Hb. unfold intersection_over_union.
  assert (Haa : box_area a = 0) by (unfold box_area; nia).
  assert (Hab : box_area b = 0) by (unfold box_area; nia).
  assert (Hi : intersection_area a b = 0).
  { unfold intersection_area. destruct Ha as [Ha | Ha].
    - rewrite (Z.max_l 0 (Z.min (y a + h a) _ - _ + 1)) by lia. lia.
    - rewrite (Z.max_l 0 (Z.min (x a + w a) _ - _ + 1)) by lia. lia. }
  unfold union_area. by rewrite Haa, Hab, Hi.
Qed.

Lemma intersection_over_union_zero_divisor_witness :
  intersection_over_union (mkTextBox 0 0 (-1) 5 None) (mkTextBox 5 5 7 (-1) None)
  = Raise ZeroDivisionError.
Proof.
  apply intersection_over_union_zero_divisor; [by left | by right].
Defined.

(** Boxes with nonnegative height and width that [boxes_intersect] have a
    strictly positive [intersection_over_union]. *)
Theorem boxes_intersect_iou_pos (a b : TextBox) :
  valid_box a -> valid_box b ->
  boxes_intersect a b = true ->
  exists q : Q, intersection_over_union a b = Ok q /\ (0 < q)%Q.
Proof.
  intros Ha Hb Hi.
  unfold boxes_intersect in Hi. apply andb_true_iff in Hi as [Hx Hy].
  apply Z.ltb_lt in Hx, Hy.
  eexists. split; [by apply intersection_over_union_valid |].
  apply Qdiv_inject_pos; [| by apply union_area_pos].
  rewrite intersection_area_overlap. apply Z.mul_pos_pos; lia.
Qed.

Lemma boxes_intersect_iou_pos_witness :
  exists q : Q,
    intersection_over_union (mkTextBox 0 0 4 6 None) (mkTextBox 2 3 4 6 None) = Ok q /\
    (0 < q)%Q.
Proof.
  apply boxes_intersect_iou_pos; unfold valid_box; vm_compute; try split; congruence.
Defined.

(** With a nonnegative [max_distance], boxes that [boxes_intersect] satisfy
    the merge predicate. *)
Theorem boxes_intersect_should_merge (max_distance : Z) (a b : TextBox) :
  0 <= max_distance ->
  boxes_intersect a b = true ->
  should_merge max_distance a b = true.
Proof.
  intros Hd Hi.
  unfold boxes_intersect in Hi. apply andb_true_iff in Hi as [Hx Hy].
  apply Z.ltb_lt in Hx, Hy.
  apply should_merge_true. left. lia.
Qed.

Lemma boxes_intersect_should_merge_witness :
  should_merge 0 (mkTextBox 0 0 4 6 None) (mkTextBox 2 3 4 6 None) = true.
Proof.
  apply boxes_intersect_should_merge; [lia | reflexivity].
Defined.

(** ** Further facts about the detection score *)

Section ScoreMore.

Lemma filter_none {A} (P : A -> Prop) `{!forall a, Decision (P a)} (l : list A) :
  Forall (fun a => ~ P a) l -> filter P l = [].
Proof.
  induction 1 as [|a l Ha _ IH]; [done |].
  by rewrite filter_cons_False.
Qed.

Lemma filter_all {A} (P : A -> Prop) `{!forall a, Decision (P a)} (l : list A) :
  Forall P l -> filter P l = l.
Proof.
  induction 1 as [|a l Ha _ IH]; [done |].
  rewrite filter_cons_True by done. by rewrite IH.
Qed.

Lemma penalty_loop_none_matched n l : penalty_loop n ∅ l = l ++ replicate n 0%Q.
Proof.
  unfold penalty_loop. rewrite penalty_fold. rewrite filter_all.
  - by rewrite length_seq.
  - apply Forall_forall. intros j _. apply not_elem_of_empty.
Qed.

Lemma q_sum_const c l :
  Forall (fun v => (v == c)%Q) l ->
  (foldr Qplus 0 l == c * inject_Z (Z.of_nat (length l)))%Q.
Proof.
  induction 1 as [|v l Hv _ IH].
  - simpl. by rewrite Qmult_0_r.
  - cbn [foldr length]. rewrite IH, Hv, Nat2Z.inj_succ.
    unfold Z.succ. rewrite inject_Z_plus. ring.
Qed.

Lemma inject_length_pos {A} (l : list A) :
  l <> [] -> (0 < inject_Z (Z.of_nat (length l)))%Q.
Proof.
  intros Hl. change 0%Q with (inject_Z 0). rewrite <- Zlt_Qlt.
  destruct l; [done | simpl; lia].
Qed.

(** The mean of a non-empty list whose elements all equal [c] is [c]. *)
Lemma q_mean_const c l :
  l <> [] -> Forall (fun v => (v == c)%Q) l -> (q_mean l == c)%Q.
Proof.
  intros Hl Hc. unfold q_mean. rewrite (q_sum_const c l Hc).
  apply Qdiv_mult_l. intros H0.
  pose proof (inject_length_pos l Hl) as Hpos. rewrite H0 in Hpos.
  by apply Qlt_irrefl in Hpos.
Qed.

Lemma q_sum_bounds l :
  Forall (fun v => (0 <= v)%Q /\ (v <= 1)%Q) l ->
  (0 <= foldr Qplus 0 l)%Q /\ (foldr Qplus 0 l <= inject_Z (Z.of_nat (length l)))%Q.
Proof.
  induction 1 as [|v l [Hv0 Hv1] _ [IH0 IH1]].
  - simpl. split; apply Qle_refl.
  - cbn [foldr length]. rewrite Nat2Z.inj_succ. unfold Z.succ. rewrite inject_Z_plus.
    split.
    + change 0%Q with (0 + 0)%Q. by apply Qplus_le_compat.
    + rewrite Qplus_comm. by apply Qplus_le_compat.
Qed.

Lemma q_mean_bounds l :
  l <> [] -> Forall (fun v => (0 <= v)%Q /\ (v <= 1)%Q) l ->
  (0 <= q_mean l)%Q /\ (q_mean l <= 1)%Q.
Proof.
  intros Hl Hb. destruct (q_sum_bounds l Hb) as [H0 H1].
  pose proof (inject_length_pos l Hl) as Hpos. unfold q_mean. split.
  - apply Qle_shift_div_l; [done |]. by rewrite Qmult_0_l.
  - apply Qle_shift_div_r; [done |]. by rewrite Qmult_1_l.
Qed.

Lemma iou_value_range d g :
  valid_box d -> valid_box g -> (0 <= iou_value d g)%Q /\ (iou_value d g <= 1)%Q.
Proof.
  intros Hd Hg. pose proof (union_area_pos d g Hd Hg). unfold iou_value. split.
  - apply Qdiv_inject_nonneg; [apply intersection_area_nonneg | done].
  - apply Qdiv_inject_le_1; [by apply intersection_le_union | done].
Qed.

Lemma best_iou_is_maximum gold d :
  gold <> [] -> is_maximum (best_iou gold d) (iou_value d <$> gold).
Proof.
  intros Hg. destruct gold as [|g gs]; [done |].
  unfold best_iou. rewrite fmap_cons. apply q_maximum_is_maximum.
Qed.

Lemma best_iou_range gold d :
  gold <> [] -> valid_box d -> Forall valid_box gold ->
  (0 <= best_iou gold d)%Q /\ (best_iou gold d <= 1)%Q.
Proof.
  intros Hg Hd Hgold.
  destruct (best_iou_is_maximum gold d Hg) as [(u & Hu & He) _].
  apply list_elem_of_fmap in Hu as (g & -> & Hin).
  rewrite Forall_forall in Hgold.
  rewrite <- He. by apply iou_value_range, Hgold.
Qed.

Lemma recorded_values_range detected gold :
  gold <> [] -> Forall valid_box detected -> Forall valid_box gold ->
  Forall (fun v => (0 <= v)%Q /\ (v <= 1)%Q) (recorded_values detected gold).
Proof.
  intros Hg Hd Hgold. unfold recorded_values. apply Forall_app. split.
  - apply Forall_fmap. eapply Forall_impl; [exact Hd |].
    intros d Hvd. by apply best_iou_range.
  - apply Forall_forall. intros v Hv. apply elem_of_replicate in Hv as [-> _].
    split; [apply Qle_refl | done].
Qed.

(** Against itself, every region of the list has a best IoU of 1, found at
    its own index. *)
Lemma best_iou_same l d :
  Forall valid_box l -> d ∈ l -> (best_iou l d == 1)%Q.
Proof.
  intros Hl Hd. rewrite Forall_forall in Hl.
  assert (Hne : l <> []) by (intros ->; by apply elem_of_nil in Hd).
  apply (is_maximum_unique _ _ (iou_value d <$> l)); [by apply best_iou_is_maximum |].
  split.
  - exists (iou_value d d). split; [by apply list_elem_of_fmap_2 |].
    apply iou_value_self. by apply Hl.
  - intros u Hu. apply list_elem_of_fmap in Hu as (g & -> & Hg).
    apply iou_value_range; by apply Hl.
Qed.

Lemma unmatched_gold_same_list l : Forall valid_box l -> unmatched_gold l l = [].
Proof.
  intros Hl. unfold unmatched_gold. apply filter_none.
  apply Forall_forall. intros j Hj Hall.
  apply elem_of_seq in Hj as [_ Hj]. simpl in Hj.
  destruct (lookup_lt_is_Some_2 l j Hj) as [g Hg].
  assert (Hin : g ∈ l) by (apply list_elem_of_lookup; by exists j).
  apply Is_true_true in Hall. rewrite forallb_forall in Hall.
  specialize (Hall g (proj1 (list_elem_of_In _ _) Hin)).
  unfold is_arg_max in Hall. rewrite Hg in Hall.
  assert (He : Qeq_bool (iou_value g g) (best_iou l g) = true).
  { apply Qeq_bool_iff. rewrite (best_iou_same l g Hl Hin).
    apply iou_value_self. rewrite Forall_forall in Hl. by apply Hl. }
  by rewrite He in Hall.
Qed.

Lemma rmap_iou_zero_divisor d gold g :
  g ∈ gold -> union_area d g = 0 ->
  rmap (intersection_over_union d) gold = Raise ZeroDivisionError.
Proof.
  intros Hin Hz. induction gold as [|g0 gold IH]; [by apply elem_of_nil in Hin |].
  cbn [rmap].
  assert (Hg0 : intersection_over_union d g0 = Raise ZeroDivisionError \/
                (union_area d g0 <> 0 /\ exists q, intersection_over_union d g0 = Ok q)).
  { unfold intersection_over_union.
    destruct (Z.eqb_spec (union_area d g0) 0); [by left | right; eauto]. }
  destruct Hg0 as [-> | (Hn0 & q & ->)]; [reflexivity |].
  apply elem_of_cons in Hin as [-> | Hin]; [done |].
  cbn [mbind result_bind]. by rewrite (IH Hin).
Qed.

End ScoreMore.

(** Without detected regions no IoU is computed: with no gold region either
    the score is [nan], and otherwise every gold region counts as a zero
    and the score is 0. *)
Theorem multi_intersection_over_union_no_detection :
  multi_intersection_over_union [] [] = Ok NaN /\
  forall (g : TextBox) (gold : list TextBox),
    exists q : Q,
      multi_intersection_over_union [] (g :: gold) = Ok (Finite q) /\ (q == 0)%Q.
Proof.
  split; [reflexivity |].
  intros g gold. unfold multi_intersection_over_union.
  cbn [detected_loop mbind result_bind fst snd].
  rewrite penalty_loop_none_matched. cbn [app].
  rewrite np_mean_nonempty by done.
  eexists. split; [reflexivity |].
  apply q_mean_const; [done |].
  apply Forall_forall. intros v Hv. by apply elem_of_replicate in Hv as [-> _].
Qed.

(** For non-empty lists of regions with nonnegative height and width the
    score lies between 0 and 1. *)
Theorem multi_intersection_over_union_range (detected gold : list TextBox) :
  detected <> [] -> gold <> [] ->
  Forall valid_box detected -> Forall valid_box gold ->
  exists q : Q,
    multi_intersection_over_union detected gold = Ok (Finite q) /\
    (0 <= q)%Q /\ (q <= 1)%Q.
Proof.
  intros Hd Hg Hvd Hvg.
  destruct (multi_intersection_over_union_spec detected gold Hd Hg Hvd Hvg)
    as (q & Hq & He).
  exists q. split; [done |]. rewrite He.
  apply q_mean_bounds; [| by apply recorded_values_range].
  unfold recorded_values. destruct detected; [done | discriminate].
Qed.

Lemma multi_intersection_over_union_range_witness :
  let d1 := mkTextBox 0 0 5 5 None in
  let d2 := mkTextBox 3 3 5 5 None in
  let g1 := mkTextBox 1 1 5 5 None in
  exists q : Q,
    multi_intersection_over_union [d1; d2] [g1] = Ok (Finite q) /\
    (0 <= q)%Q /\ (q <= 1)%Q.
Proof.
  intros d1 d2 g1.
  apply (multi_intersection_over_union_range [d1; d2] [g1]);
    try discriminate; repeat constructor; vm_compute; congruence.
Defined.

(** A non-empty list of regions with nonnegative height and width, scored
    against itself, has score 1. *)
Theorem multi_intersection_over_union_same (l : list TextBox) :
  l <> [] -> Forall valid_box l ->
  exists q : Q,
    multi_intersection_over_union l l = Ok (Finite q) /\ (q == 1)%Q.
Proof.
  intros Hl Hv.
  destruct (multi_intersection_over_union_spec l l Hl Hl Hv Hv) as (q & Hq & He).
  exists q. split; [done |]. rewrite He.
  unfold average_best_iou_spec, recorded_values.
  rewrite (unmatched_gold_same_list l Hv). cbn [length replicate]. rewrite app_nil_r.
  apply q_mean_const.
  - destruct l; [done | discriminate].
  - apply Forall_fmap, Forall_forall. intros d Hd. by apply best_iou_same.
Qed.

Lemma multi_intersection_over_union_same_witness :
  let l := [mkTextBox 0 0 5 5 None; mkTextBox 3 3 5 5 (Some "a"%string);
            mkTextBox 0 0 5 5 None] in
  exists q : Q,
    multi_intersection_over_union l l = Ok (Finite q) /\ (q == 1)%Q.
Proof.
  intros l.
  apply (multi_intersection_over_union_same l);
    [discriminate | repeat constructor; vm_compute; congruence].
Defined.

(** When the first detected region and some gold region have a zero divisor,
    the score is not computed: [ZeroDivisionError] is raised. *)
Theorem multi_intersection_over_union_zero_divisor (d g : TextBox)
    (ds gold : list TextBox) :
  g ∈ gold -> union_area d g = 0 ->
  multi_intersection_over_union (d :: ds) gold = Raise ZeroDivisionError.
Proof.
  intros Hin Hz. unfold multi_intersection_over_union.
  cbn [detected_loop]. by rewrite (rmap_iou_zero_divisor d gold g Hin Hz).
Qed.

Lemma multi_intersection_over_union_zero_divisor_witness :
  multi_intersection_over_union
    [mkTextBox 0 0 (-1) 5 None]
    [mkTextBox 0 0 5 5 None; mkTextBox 5 5 (-1) 5 None] = Raise ZeroDivisionError.
Proof.
  apply (multi_intersection_over_union_zero_divisor _ (mkTextBox 5 5 (-1) 5 None)).
  - apply list_elem_of_further, list_elem_of_here.
  - reflexivity.
Defined.

(** ** Further facts about merging *)

Section MergeMore.

Variable max_distance : Z.

Lemma encloses_refl b : encloses b b.
Proof. unfold encloses. lia. Qed.

Lemma encloses_trans r m b : encloses r m -> encloses m b -> encloses r b.
Proof. unfold encloses. lia. Qed.

Lemma fold_left_min_le_elem vs v u : u ∈ v :: vs -> fold_left Z.min vs v <= u.
Proof.
  revert v. induction vs as [|v' vs IH]; intros v Hu.
  - apply list_elem_of_singleton in Hu as ->. simpl. lia.
  - simpl. apply elem_of_cons in Hu as [-> | Hu].
    + pose proof (fold_left_min_le vs (Z.min v v')). lia.
    + apply elem_of_cons in Hu as [-> | Hu].
      * pose proof (fold_left_min_le vs (Z.min v v')). lia.
      * apply IH. by apply list_elem_of_further.
Qed.

Lemma fold_left_max_ge_elem vs v u : u ∈ v :: vs -> u <= fold_left Z.max vs v.
Proof.
  revert v. induction vs as [|v' vs IH]; intros v Hu.
  - apply list_elem_of_singleton in Hu as ->. simpl. lia.
  - simpl. apply elem_of_cons in Hu as [-> | Hu].
    + pose proof (fold_left_max_ge vs (Z.max v v')). lia.
    + apply elem_of_cons in Hu as [-> | Hu].
      * pose proof (fold_left_max_ge vs (Z.max v v')). lia.
      * apply IH. by apply list_elem_of_further.
Qed.

Lemma fold_left_min_glb vs v lo :
  Forall (fun u => lo <= u) (v :: vs) -> lo <= fold_left Z.min vs v.
Proof.
  revert v. induction vs as [|v' vs IH]; intros v Hall.
  - apply Forall_cons in Hall as [Hv _]. done.
  - apply Forall_cons in Hall as [Hv Hall].
    apply Forall_cons in Hall as [Hv' Hall].
    simpl. apply IH. constructor; [lia | done].
Qed.

Lemma fold_left_max_lub vs v hi :
  Forall (fun u => u <= hi) (v :: vs) -> fold_left Z.max vs v <= hi.
Proof.
  revert v. induction vs as [|v' vs IH]; intros v Hall.
  - apply Forall_cons in Hall as [Hv _]. done.
  - apply Forall_cons in Hall as [Hv Hall].
    apply Forall_cons in Hall as [Hv' Hall].
    simpl. apply IH. constructor; [lia | done].
Qed.

Lemma merge_cons_eq b0 bs :
  merge (b0 :: bs) =
  Ok (mkTextBox (fold_left Z.min (y <$> bs) (y b0))
                (fold_left Z.min (x <$> bs) (x b0))
                (fold_left Z.max ((fun b => y b + h b) <$> bs) (y b0 + h b0)
                 - fold_left Z.min (y <$> bs) (y b0))
                (fold_left Z.max ((fun b => x b + w b) <$> bs) (x b0 + w b0)
                 - fold_left Z.min (x <$> bs) (x b0))
                None).
Proof. reflexivity. Qed.

Lemma merge_encloses (b0 : TextBox) (bs : list TextBox) m b :
  merge (b0 :: bs) = Ok m -> b ∈ b0 :: bs -> encloses m b.
Proof.
  rewrite merge_cons_eq. intros Hm Hb. injection Hm as <-.
  unfold encloses. simpl.
  pose proof (fold_left_min_le_elem (fmap (M:=list) y bs) (y b0) (y b)
                (list_elem_of_fmap_2 y (b0 :: bs) b Hb)) as H1.
  pose proof (fold_left_min_le_elem (fmap (M:=list) x bs) (x b0) (x b)
                (list_elem_of_fmap_2 x (b0 :: bs) b Hb)) as H2.
  pose proof (fold_left_max_ge_elem (fmap (M:=list) (fun b : TextBox => y b + h b) bs) (y b0 + h b0)
                (y b + h b)
                (list_elem_of_fmap_2 (fun b : TextBox => y b + h b) (b0 :: bs) b Hb)) as H3.
  pose proof (fold_left_max_ge_elem (fmap (M:=list) (fun b : TextBox => x b + w b) bs) (x b0 + w b0)
                (x b + w b)
                (list_elem_of_fmap_2 (fun b : TextBox => x b + w b) (b0 :: bs) b Hb)) as H4.
  lia.
Qed.

Lemma Forall_fmap_cons {A B} (f : A -> B) (P : B -> Prop) a l :
  Forall (fun a' => P (f a')) (a :: l) -> Forall P (f a :: (f <$> l)).
Proof.
  intros H. change (Forall P (f <$> a :: l)). by apply Forall_fmap.
Qed.

Lemma merge_least (b0 : TextBox) (bs : list TextBox) m r :
  merge (b0 :: bs) = Ok m -> Forall (encloses r) (b0 :: bs) -> encloses r m.
Proof.
  rewrite merge_cons_eq. intros Hm Hall. injection Hm as <-.
  unfold encloses. simpl.
  assert (H1 : y r <= fold_left Z.min (y <$> bs) (y b0)).
  { apply fold_left_min_glb, Forall_fmap_cons.
    eapply Forall_impl; [exact Hall | intros ? (? & ? & ? & ?); lia]. }
  assert (H2 : x r <= fold_left Z.min (x <$> bs) (x b0)).
  { apply fold_left_min_glb, Forall_fmap_cons.
    eapply Forall_impl; [exact Hall | intros ? (? & ? & ? & ?); lia]. }
  assert (H3 : fold_left Z.max ((fun b : TextBox => y b + h b) <$> bs) (y b0 + h b0)
               <= y r + h r).
  { apply fold_left_max_lub.
    apply (Forall_fmap_cons (fun b : TextBox => y b + h b) (fun u => u <= y r + h r)).
    eapply Forall_impl; [exact Hall | intros ? (? & ? & ? & ?); lia]. }
  assert (H4 : fold_left Z.max ((fun b : TextBox => x b + w b) <$> bs) (x b0 + w b0)
               <= x r + w r).
  { apply fold_left_max_lub.
    apply (Forall_fmap_cons (fun b : TextBox => x b + w b) (fun u => u <= x r + w r)).
    eapply Forall_impl; [exact Hall | intros ? (? & ? & ? & ?); lia]. }
  lia.
Qed.

Lemma merge_text b0 bs m : merge (b0 :: bs) = Ok m -> text m = None.
Proof. rewrite merge_cons_eq. by intros [= <-]. Qed.

Lemma compress_elem_of {A} (l : list A) (sel : list bool) a :
  a ∈ compress l sel -> a ∈ l.
Proof.
  revert sel. induction l as [|a0 l IH]; intros sel Ha.
  - destruct sel; by apply elem_of_nil in Ha.
  - destruct sel as [|[] sel]; simpl in Ha.
    + by apply elem_of_nil in Ha.
    + apply elem_of_cons in Ha as [-> | Ha];
        [apply list_elem_of_here | apply list_elem_of_further; by eapply IH].
    + apply list_elem_of_further. by eapply IH.
Qed.

Lemma compress_split {A} (f : A -> bool) (l : list A) a :
  a ∈ l -> a ∈ compress l (f <$> l) \/ a ∈ compress l (negb <$> (f <$> l)).
Proof.
  induction l as [|a0 l IH]; intros Ha; [by apply elem_of_nil in Ha |].
  rewrite !fmap_cons. simpl.
  apply elem_of_cons in Ha as [-> | Ha].
  - destruct (f a0); simpl; [left | right]; apply list_elem_of_here.
  - destruct (IH Ha) as [H | H]; destruct (f a0); simpl;
      [left | left | right | right]; try done; by apply list_elem_of_further.
Qed.

Lemma compress_keep_le {A} (f : A -> bool) (l : list A) :
  (length (compress l (negb <$> (f <$> l))) <= length l)%nat.
Proof. pose proof (compress_keep_length f l). lia. Qed.

(** A pass whose reference box merges with itself, in full. *)
Lemma loop_body_self pre ref_box rest m :
  should_merge max_distance ref_box ref_box = true ->
  merge (ref_box :: ref_box ::
         compress rest (should_merge max_distance ref_box <$> rest)) = Ok m ->
  loop_body max_distance (pre ++ ref_box :: rest, length pre) =
  Ok (pre ++ m :: compress rest (negb <$> (should_merge max_distance ref_box <$> rest)),
      if (length pre +
          length (m :: compress rest
                         (negb <$> (should_merge max_distance ref_box <$> rest)))
          =? length (pre ++ ref_box :: rest))%nat
      then S (length pre) else length pre).
Proof.
  intros Hself Hm. unfold loop_body. cbn [fst snd].
  rewrite list_lookup_middle by done.
  rewrite drop_app_length, take_app_length.
  unfold merge_with_box. rewrite !fmap_cons, Hself.
  cbn [Nat.b2n sum_list sum_list_with Nat.add Nat.eqb negb compress app].
  rewrite Hm. unfold id. cbn [Nat.add Nat.eqb mbind result_bind]. reflexivity.
Qed.

(** Induction over a run of the loop that returns: a property of the loop
    state that every self-merging pass keeps holds of the final state.
    Passes whose reference box does not merge with itself need no case,
    since no run that returns contains one. *)
Lemma merge_loop_returns_ind (I : merge_state -> Prop) :
  (forall pre ref_box rest m,
     should_merge max_distance ref_box ref_box = true ->
     merge (ref_box :: ref_box ::
            compress rest (should_merge max_distance ref_box <$> rest)) = Ok m ->
     I (pre ++ ref_box :: rest, length pre) ->
     forall idx',
       idx' = S (length pre) \/ idx' = length pre ->
       I (pre ++ m :: compress rest
                        (negb <$> (should_merge max_distance ref_box <$> rest)),
          idx')) ->
  forall fuel st res,
    I st -> merge_loop max_distance fuel st = Some (Ok res) ->
    exists idx, I (res, idx) /\ loop_cond (res, idx) = false.
Proof.
  intros Hstep. induction fuel as [|fuel IH]; intros [curr idx] res HI Hrun.
  - simpl in Hrun. destruct (loop_cond (curr, idx)) eqn:Hc; [done |].
    injection Hrun as <-. by exists idx.
  - simpl in Hrun. destruct (loop_cond (curr, idx)) eqn:Hc;
      [| injection Hrun as <-; by exists idx].
    unfold loop_cond in Hc. simpl in Hc. apply Z.ltb_lt in Hc.
    assert (Hidx : (idx < length curr)%nat) by lia.
    destruct (lookup_lt_is_Some_2 curr idx Hidx) as [ref_box Href].
    pose proof (take_drop_middle curr idx ref_box Href) as Hsplit.
    assert (Hpre : length (take idx curr) = idx) by (rewrite length_take; lia).
    assert (Hrest : drop (S idx) curr <> []).
    { intros Hnil. apply (f_equal length) in Hnil.
      rewrite length_drop in Hnil. simpl in Hnil. lia. }
    destruct (should_merge max_distance ref_box ref_box) eqn:Hself.
    + destruct (merge_cons ref_box (ref_box ::
                  compress (drop (S idx) curr)
                    (should_merge max_distance ref_box <$> drop (S idx) curr)))
        as (m & Hm & _).
      pose proof (loop_body_self (take idx curr) ref_box (drop (S idx) curr) m
                    Hself Hm) as Hbody.
      rewrite Hpre, Hsplit in Hbody. rewrite Hbody in Hrun.
      eapply IH; [| exact Hrun].
      assert (HI' : I (take idx curr ++ ref_box :: drop (S idx) curr,
                       length (take idx curr))) by by rewrite Hpre, Hsplit.
      pose proof (Hstep _ _ _ _ Hself Hm HI') as Hnext. rewrite Hpre in Hnext.
      apply Hnext. destruct (_ =? _)%nat; [by left | by right].
    + pose proof (merge_loop_diverges max_distance (take idx curr) ref_box Hself
                    (S fuel) (drop (S idx) curr) Hrest) as Hdiv.
      rewrite Hpre, Hsplit in Hdiv. simpl in Hdiv.
      destruct (loop_cond (curr, idx)) eqn:Hc'.
      * rewrite Hdiv in Hrun. discriminate.
      * unfold loop_cond in Hc'. simpl in Hc'. apply Z.ltb_ge in Hc'. lia.
Qed.

Lemma merge_nearby_boxes_returns_ind (I : merge_state -> Prop) :
  (forall pre ref_box rest m,
     should_merge max_distance ref_box ref_box = true ->
     merge (ref_box :: ref_box ::
            compress rest (should_merge max_distance ref_box <$> rest)) = Ok m ->
     I (pre ++ ref_box :: rest, length pre) ->
     forall idx',
       idx' = S (length pre) \/ idx' = length pre ->
       I (pre ++ m :: compress rest
                        (negb <$> (should_merge max_distance ref_box <$> rest)),
          idx')) ->
  forall fuel boxes res,
    I (boxes, O) ->
    merge_nearby_boxes fuel boxes max_distance = Some (Ok res) ->
    exists idx, I (res, idx) /\ loop_cond (res, idx) = false.
Proof.
  intros Hstep fuel boxes res HI Hrun. unfold merge_nearby_boxes in Hrun.
  destruct (Nat.leb_spec (length boxes) 1) as [Hle | Hgt].
  - injection Hrun as <-. exists O. split; [done |].
    unfold loop_cond. simpl. apply Z.ltb_ge. lia.
  - by apply (merge_loop_returns_ind I Hstep fuel (boxes, O) res).
Qed.

End MergeMore.

(** [merge] raises [ValueError] on the empty list.  On a non-empty list it
    returns the smallest enclosing rectangle, without a label: it encloses
    every box of the list, and every rectangle that encloses all of them
    encloses it. *)
Theorem merge_smallest_enclosing :
  merge [] = Raise ValueError /\
  forall (b0 : TextBox) (bs : list TextBox),
    exists m : TextBox,
      merge (b0 :: bs) = Ok m /\
      text m = None /\
      (forall b, b ∈ b0 :: bs -> encloses m b) /\
      (forall r, Forall (encloses r) (b0 :: bs) -> encloses r m).
Proof.
  split; [reflexivity |]. intros b0 bs.
  destruct (merge_cons b0 bs) as (m & Hm & _).
  exists m. split; [done |]. split; [by eapply merge_text |]. split.
  - intros b Hb. by eapply merge_encloses.
  - intros r Hr. by eapply merge_least.
Qed.

Lemma merge_smallest_enclosing_witness :
  let a := mkTextBox 0 0 5 5 (Some "a"%string) in
  let b := mkTextBox 2 8 5 5 (Some "b"%string) in
  exists m : TextBox,
    merge [a; b] = Ok m /\ encloses m a /\ encloses m b /\
    (encloses (mkTextBox (-1) (-1) 20 20 None) m).
Proof.
  intros a b.
  destruct (proj2 merge_smallest_enclosing a [b]) as (m & Hm & _ & Hin & Hleast).
  exists m. split; [exact Hm |]. split; [| split].
  - apply Hin, list_elem_of_here.
  - apply Hin, list_elem_of_further, list_elem_of_here.
  - apply Hleast. repeat constructor; vm_compute; congruence.
Defined.

(** Whenever [merge_nearby_boxes] returns, the returned sequence is not
    longer than its input, and it is not empty unless the input is. *)
Theorem merge_nearby_boxes_never_longer (fuel : nat) (boxes res : list TextBox)
    (max_distance : Z) :
  merge_nearby_boxes fuel boxes max_distance = Some (Ok res) ->
  (length res <= length boxes)%nat /\ (boxes <> [] -> res <> []).
Proof.
  intros Hrun.
  destruct (merge_nearby_boxes_returns_ind max_distance
              (fun st => (length st.1 <= length boxes)%nat /\ (boxes <> [] -> st.1 <> []))
              ) with (fuel := fuel) (boxes := boxes) (res := res)
    as (idx & HI & _); [| by split | done | exact HI].
  intros pre ref_box rest m _ _ [Hlen _] idx' _. simpl in *. split.
  - rewrite length_app in *. simpl in *.
    pose proof (compress_keep_le (should_merge max_distance ref_box) rest). lia.
  - intros _ Hnil. by apply app_eq_nil in Hnil as [_ Hnil].
Qed.

Lemma merge_nearby_boxes_never_longer_witness :
  let boxes := [mkTextBox 0 0 5 5 None; mkTextBox 0 8 5 5 None;
                mkTextBox 50 50 1 1 None] in
  let res := [mkTextBox 0 0 5 13 None; mkTextBox 50 50 1 1 None] in
  (length res <= length boxes)%nat /\ (boxes <> [] -> res <> []).
Proof.
  intros boxes res.
  apply (merge_nearby_boxes_never_longer 10 boxes res 5). reflexivity.
Defined.

(** Whenever [merge_nearby_boxes] returns, every input box is enclosed by
    some returned box: merging never uncovers a region. *)
Theorem merge_nearby_boxes_covers (fuel : nat) (boxes res : list TextBox)
    (max_distance : Z) :
  merge_nearby_boxes fuel boxes max_distance = Some (Ok res) ->
  forall b, b ∈ boxes -> exists r, r ∈ res /\ encloses r b.
Proof.
  intros Hrun.
  destruct (merge_nearby_boxes_returns_ind max_distance
              (fun st => forall b, b ∈ boxes -> exists r, r ∈ st.1 /\ encloses r b))
    with (fuel := fuel) (boxes := boxes) (res := res)
    as (idx & HI & _); [| | done | exact HI].
  - intros pre ref_box rest m _ Hm HI idx' _ b Hb. simpl in *.
    destruct (HI b Hb) as (r & Hr & Henc).
    apply elem_of_app in Hr as [Hr | Hr].
    { exists r. split; [apply elem_of_app; by left | done]. }
    apply elem_of_cons in Hr as [-> | Hr].
    { exists m. split; [apply elem_of_app; right; apply list_elem_of_here |].
      eapply encloses_trans; [| exact Henc].
      eapply merge_encloses; [exact Hm | apply list_elem_of_here]. }
    destruct (compress_split (should_merge max_distance ref_box) rest r Hr) as [Hin | Hin].
    + exists m. split; [apply elem_of_app; right; apply list_elem_of_here |].
      eapply encloses_trans; [| exact Henc].
      eapply merge_encloses; [exact Hm | by do 2 apply list_elem_of_further].
    + exists r. split; [| done].
      apply elem_of_app. right. by apply list_elem_of_further.
  - intros b Hb. exists b. split; [done | apply encloses_refl].
Qed.

Lemma merge_nearby_boxes_covers_witness :
  let boxes := [mkTextBox 0 0 5 5 None; mkTextBox 0 8 5 5 None;
                mkTextBox 50 50 1 1 None] in
  let res := [mkTextBox 0 0 5 13 None; mkTextBox 50 50 1 1 None] in
  exists r, r ∈ res /\ encloses r (mkTextBox 0 8 5 5 None).
Proof.
  intros boxes res.
  apply (merge_nearby_boxes_covers 10 boxes res 5); [reflexivity |].
  apply list_elem_of_further, list_elem_of_here.
Defined.

(** Whenever [merge_nearby_boxes] returns, every returned box lies within
    any rectangle that encloses all input boxes: merging never reaches
    beyond the hull of the input. *)
Theorem merge_nearby_boxes_within_hull (fuel : nat) (boxes res : list TextBox)
    (max_distance : Z) (hull : TextBox) :
  merge_nearby_boxes fuel boxes max_distance = Some (Ok res) ->
  Forall (encloses hull) boxes ->
  Forall (encloses hull) res.
Proof.
  intros Hrun Hall.
  destruct (merge_nearby_boxes_returns_ind max_distance
              (fun st => Forall (encloses hull) st.1))
    with (fuel := fuel) (boxes := boxes) (res := res)
    as (idx & HI & _); [| done | done | exact HI].
  intros pre ref_box rest m _ Hm HI idx' _. simpl in *.
  apply Forall_app in HI as [Hpre Hrest].
  apply Forall_cons in Hrest as [Href Hrest].
  apply Forall_app. split; [done |]. constructor.
  - eapply merge_least; [exact Hm |].
    do 2 (constructor; [done |]). by apply compress_Forall.
  - by apply compress_Forall.
Qed.

Lemma merge_nearby_boxes_within_hull_witness :
  let boxes := [mkTextBox 0 0 5 5 None; mkTextBox 0 8 5 5 None;
                mkTextBox 50 50 1 1 None] in
  let res := [mkTextBox 0 0 5 13 None; mkTextBox 50 50 1 1 None] in
  Forall (encloses (mkTextBox 0 0 51 51 None)) res.
Proof.
  intros boxes res.
  apply (merge_nearby_boxes_within_hull 10 boxes res 5); [reflexivity |].
  repeat constructor; vm_compute; congruence.
Defined.

(** Whenever [merge_nearby_boxes] returns on boxes with nonnegative height
    and width, the returned boxes have nonnegative height and width. *)
Theorem merge_nearby_boxes_valid (fuel : nat) (boxes res : list TextBox)
    (max_distance : Z) :
  merge_nearby_boxes fuel boxes max_distance = Some (Ok res) ->
  Forall valid_box boxes ->
  Forall valid_box res.
Proof.
  intros Hrun Hall.
  destruct (merge_nearby_boxes_returns_ind max_distance
              (fun st => Forall valid_box st.1))
    with (fuel := fuel) (boxes := boxes) (res := res)
    as (idx & HI & _); [| done | done | exact HI].
  intros pre ref_box rest m _ Hm HI idx' _. simpl in *.
  apply Forall_app in HI as [Hpre Hrest].
  apply Forall_cons in Hrest as [[Hh Hw] Hrest].
  apply Forall_app. split; [done |]. constructor.
  - destruct (merge_cons ref_box (ref_box ::
                compress rest (should_merge max_distance ref_box <$> rest)))
      as (m' & Hm' & Hh' & Hw').
    rewrite Hm in Hm'. injection Hm' as <-. unfold valid_box. lia.
  - by apply compress_Forall.
Qed.

Lemma merge_nearby_boxes_valid_witness :
  let boxes := [mkTextBox 0 0 5 5 None; mkTextBox 0 8 5 5 None;
                mkTextBox 50 50 1 1 None] in
  let res := [mkTextBox 0 0 5 13 None; mkTextBox 50 50 1 1 None] in
  Forall valid_box res.
Proof.
  intros boxes res.
  apply (merge_nearby_boxes_valid 10 boxes res 5); [reflexivity |].
  repeat constructor; vm_compute; congruence.
Defined.

(** Whenever [merge_nearby_boxes] returns on two or more boxes, every
    returned box except the last one has no label: each of them was the
    reference box of a pass and was rebuilt by [merge], which sets no text. *)
Theorem merge_nearby_boxes_labels (fuel : nat) (boxes res : list TextBox)
    (max_distance : Z) :
  merge_nearby_boxes fuel boxes max_distance = Some (Ok res) ->
  (2 <= length boxes)%nat ->
  forall (i : nat) (b : TextBox),
    res !! i = Some b -> (S i < length res)%nat -> text b = None.
Proof.
  intros Hrun Hlen.
  unfold merge_nearby_boxes in Hrun.
  destruct (Nat.leb_spec (length boxes) 1) as [Hle | _]; [lia |].
  destruct (merge_loop_returns_ind max_distance
              (fun st => Forall (fun b => text b = None) (take st.2 st.1)))
    with (fuel := fuel) (st := (boxes, O)) (res := res)
    as (idx & HI & Hend); [| by constructor | done |].
  - intros pre ref_box rest m _ Hm HI idx' Hidx. simpl in *.
    rewrite take_app_length in HI.
    destruct Hidx as [-> | ->].
    + rewrite (cons_middle m pre), app_assoc.
      rewrite take_app_length' by (rewrite length_app; simpl; lia).
      apply Forall_app. split; [done |]. constructor; [| done].
      by eapply merge_text.
    + by rewrite take_app_length.
  - intros i b Hb Hi. simpl in HI.
    unfold loop_cond in Hend. simpl in Hend. apply Z.ltb_ge in Hend.
    rewrite Forall_forall in HI. apply HI.
    apply list_elem_of_lookup. exists i.
    rewrite lookup_take_lt by lia. done.
Qed.

Lemma merge_nearby_boxes_labels_witness :
  let boxes := [mkTextBox 0 0 5 5 (Some "a"%string); mkTextBox 40 40 5 5 (Some "b"%string);
                mkTextBox 90 90 1 1 (Some "c"%string)] in
  let res := [mkTextBox 0 0 5 5 None; mkTextBox 40 40 5 5 None;
              mkTextBox 90 90 1 1 (Some "c"%string)] in
  text (mkTextBox 40 40 5 5 None) = None.
Proof.
  intros boxes res.
  apply (merge_nearby_boxes_labels 10 boxes res 5 eq_refl) with (i := 1%nat);
    [simpl; lia | reflexivity | simpl; lia].
Defined.

(** With a positive [max_distance], [merge_nearby_boxes] returns within
    [2 * len(boxes)] passes on boxes with nonnegative height and width that
    are not a single point (height or width positive). *)
Theorem merge_nearby_boxes_returns (boxes : list TextBox) (max_distance : Z) :
  0 < max_distance ->
  Forall (fun b => valid_box b /\ (0 < h b \/ 0 < w b)) boxes ->
  exists res,
    merge_nearby_boxes (2 * length boxes) boxes max_distance = Some (Ok res).
Proof.
  intros Hd Hall. apply merge_nearby_boxes_terminates.
  eapply Forall_impl; [exact Hall |].
  intros b [[Hh Hw] Hpos]. apply should_merge_true.
  rewrite overlap_x_self, overlap_y_self. lia.
Qed.

Lemma merge_nearby_boxes_returns_witness :
  exists res,
    merge_nearby_boxes 6 [mkTextBox 0 0 5 5 None; mkTextBox 0 8 5 0 None;
                          mkTextBox 50 50 0 1 None] 5 = Some (Ok res).
Proof.
  apply (merge_nearby_boxes_returns
           [mkTextBox 0 0 5 5 None; mkTextBox 0 8 5 0 None; mkTextBox 50 50 0 1 None] 5);
    [lia |].
  repeat constructor; unfold valid_box; simpl; lia.
Defined.

Lemma merge_nearby_boxes_pair_witness :
  let a := mkTextBox 0 0 5 5 (Some "a"%string) in
  let b := mkTextBox 0 8 5 5 (Some "b"%string) in
  merge_nearby_boxes 1 [a; b] 5 =
  Some (Ok (if should_merge 5 a b then [enclosing a b] else [unlabelled a; b])).
Proof.
  intros a b. apply (merge_nearby_boxes_pair 5 a b 0). reflexivity.
Defined.

(** ** Further facts about the detect/in-paint loop *)

Module DetextifierMore.
Import Detextifier.

Section Loop.

Context {Image Exn World : Type}.
Variable detect_text : Image -> World -> result Exn (list TextBox) * World.
Variable inpaint : Image -> list TextBox -> string -> World -> result Exn Image * World.

Let loop := detextify_loop detect_text inpaint.
Let run := detextify detect_text inpaint.

(** The calls made so far are a prefix of the calls of the outcome; the rest
    of the outcome does not depend on them. *)
Lemma loop_calls_prefix n img p wd tr :
  loop n img p wd tr =
  let o := loop n img p wd [] in
  mkOutcome (returned o) (left_by o) (final_world o) (tr ++ calls o).
Proof.
  unfold loop. revert img wd tr. induction n as [|n IH]; intros img wd tr.
  - simpl. by rewrite app_nil_r.
  - simpl. destruct (detect_text img wd) as [[bs | e] wd1]; [| done].
    destruct bs as [|b bs]; [done |].
    destruct (inpaint img (b :: bs) p wd1) as [[img' | e] wd2].
    + rewrite (IH img' wd2 ((tr ++ [DetectCall img]) ++ [InpaintCall img (b :: bs) p])).
      rewrite (IH img' wd2 [DetectCall img; InpaintCall img (b :: bs) p]).
      simpl. by rewrite <- !app_assoc.
    + simpl. by rewrite <- app_assoc.
Qed.

(** The four ways through one iteration. *)
Lemma loop_cases n img p wd :
  (exists e wd1,
     detect_text img wd = (Raise e, wd1) /\
     loop (S n) img p wd [] = mkOutcome (Raise e) Raised wd1 [DetectCall img]) \/
  (exists wd1,
     detect_text img wd = (Ok [], wd1) /\
     loop (S n) img p wd [] = mkOutcome (Ok img) Break wd1 [DetectCall img]) \/
  (exists bs wd1 e wd2,
     detect_text img wd = (Ok bs, wd1) /\ bs <> [] /\
     inpaint img bs p wd1 = (Raise e, wd2) /\
     loop (S n) img p wd [] =
     mkOutcome (Raise e) Raised wd2 [DetectCall img; InpaintCall img bs p]) \/
  (exists bs wd1 img' wd2,
     detect_text img wd = (Ok bs, wd1) /\ bs <> [] /\
     inpaint img bs p wd1 = (Ok img', wd2) /\
     loop (S n) img p wd [] =
     let o := loop n img' p wd2 [] in
     mkOutcome (returned o) (left_by o) (final_world o)
               ([DetectCall img; InpaintCall img bs p] ++ calls o)).
Proof.
  unfold loop. simpl.
  destruct (detect_text img wd) as [[bs | e] wd1] eqn:Hd.
  - destruct bs as [|b bs].
    + right. left. by exists wd1.
    + destruct (inpaint img (b :: bs) p wd1) as [[img' | e] wd2] eqn:Hi.
      * right. right. right. exists (b :: bs), wd1, img', wd2.
        repeat (split; [done |]).
        apply (loop_calls_prefix n img' p wd2).
      * right. right. left. by exists (b :: bs), wd1, e, wd2.
  - left. by exists e, wd1.
Qed.

Lemma call_counts_detect img (l : list (@call Image)) :
  detect_calls (DetectCall img :: l) = S (detect_calls l) /\
  inpaint_calls (DetectCall img :: l) = inpaint_calls l.
Proof.
  unfold detect_calls, inpaint_calls.
  rewrite filter_cons_True by done. by rewrite filter_cons_False by (by intros []).
Qed.

Lemma call_counts_inpaint img bs p (l : list (@call Image)) :
  detect_calls (InpaintCall img bs p :: l) = detect_calls l /\
  inpaint_calls (InpaintCall img bs p :: l) = S (inpaint_calls l).
Proof.
  unfold detect_calls, inpaint_calls.
  rewrite filter_cons_False by (by intros []). by rewrite filter_cons_True by done.
Qed.

Lemma loop_call_counts n img p wd :
  let o := loop n img p wd [] in
  (detect_calls (calls o) <= n)%nat /\
  match left_by o with
  | Exhausted => detect_calls (calls o) = n /\ inpaint_calls (calls o) = n
  | Break => detect_calls (calls o) = S (inpaint_calls (calls o))
  | Raised => detect_calls (calls o) = inpaint_calls (calls o) \/
              detect_calls (calls o) = S (inpaint_calls (calls o))
  end.
Proof.
  revert img wd. induction n as [|n IH]; intros img wd; [by split |].
  destruct (loop_cases n img p wd)
    as [(e & wd1 & _ & ->) | [(wd1 & _ & ->) | [(bs & wd1 & e & wd2 & _ & _ & _ & ->)
       | (bs & wd1 & img' & wd2 & _ & _ & _ & ->)]]]; simpl.
  - destruct (call_counts_detect img []) as [-> ->].
    split; [unfold detect_calls; simpl; lia | by right].
  - destruct (call_counts_detect img []) as [-> ->]. split; [unfold detect_calls; simpl; lia | done].
  - destruct (call_counts_detect img [InpaintCall img bs p]) as [-> ->].
    destruct (call_counts_inpaint img bs p []) as [-> ->].
    split; [unfold detect_calls; simpl; lia | by left].
  - specialize (IH img' wd2). simpl in IH. destruct IH as [IH1 IH2].
    destruct (call_counts_detect img
                (InpaintCall img bs p :: calls (loop n img' p wd2 []))) as [-> ->].
    destruct (call_counts_inpaint img bs p (calls (loop n img' p wd2 []))) as [-> ->].
    split; [lia |]. destruct (left_by (loop n img' p wd2 [])); lia.
Qed.

Lemma loop_break_checked n img p wd :
  let o := loop n img p wd [] in
  left_by o = Break ->
  exists img' wd0,
    returned o = Ok img' /\
    last (calls o) = Some (DetectCall img') /\
    detect_text img' wd0 = (Ok [], final_world o).
Proof.
  revert img wd. induction n as [|n IH]; intros img wd; [done |].
  destruct (loop_cases n img p wd)
    as [(e & wd1 & _ & ->) | [(wd1 & Hd & ->) | [(bs & wd1 & e & wd2 & _ & _ & _ & ->)
       | (bs & wd1 & img' & wd2 & _ & _ & _ & ->)]]]; simpl; try done.
  - intros _. by exists img, wd.
  - intros Hb. destruct (IH img' wd2 Hb) as (img'' & wd0 & Hr & Hl & Hdet).
    exists img'', wd0. split; [done |]. split; [| done].
    destruct (calls (loop n img' p wd2 [])); [done | exact Hl].
Qed.

Lemma loop_exhausted_last_call n img0 bs0 img p wd wd0 :
  let o := loop n img p wd [InpaintCall img0 bs0 p] in
  inpaint img0 bs0 p wd0 = (Ok img, wd) ->
  left_by o = Exhausted ->
  exists img1 bs1 wd1 img',
    last (calls o) = Some (InpaintCall img1 bs1 p) /\
    inpaint img1 bs1 p wd1 = (Ok img', final_world o) /\
    returned o = Ok img'.
Proof.
  revert img0 bs0 img wd wd0. induction n as [|n IH]; intros img0 bs0 img wd wd0.
  - simpl. intros Hi _. by exists img0, bs0, wd0, img.
  - intros o Hi. subst o. rewrite loop_calls_prefix.
    destruct (loop_cases n img p wd)
      as [(e & wd1 & _ & ->) | [(wd1 & Hd & ->) | [(bs & wd1 & e & wd2 & _ & _ & _ & ->)
         | (bs & wd1 & img' & wd2 & _ & _ & Hi' & ->)]]]; simpl; try done.
    intros He.
    specialize (IH img bs img' wd2 wd1). rewrite loop_calls_prefix in IH.
    simpl in IH. destruct (IH Hi' He) as (img1 & bs1 & wd1' & img'' & Hl & Hinp & Hr).
    exists img1, bs1, wd1', img''. split; [| done].
    destruct (calls (loop n img' p wd2 [])); [exact Hl | exact Hl].
Qed.

Lemma loop_more_retries n k img p wd tr :
  left_by (loop n img p wd tr) <> Exhausted ->
  loop (n + k) img p wd tr = loop n img p wd tr.
Proof.
  unfold loop. revert img wd tr. induction n as [|n IH]; intros img wd tr; [done |].
  simpl. destruct (detect_text img wd) as [[bs | e] wd1]; [| done].
  destruct bs as [|b bs]; [done |].
  destruct (inpaint img (b :: bs) p wd1) as [[img' | e] wd2]; [| done].
  apply IH.
Qed.

Lemma loop_inpaint_arguments n img p wd :
  Forall (fun c => match c with
                   | InpaintCall _ bs p' => bs <> [] /\ p' = p
                   | DetectCall _ => True
                   end) (calls (loop n img p wd [])).
Proof.
  revert img wd. induction n as [|n IH]; intros img wd; [constructor |].
  destruct (loop_cases n img p wd)
    as [(e & wd1 & _ & ->) | [(wd1 & Hd & ->) | [(bs & wd1 & e & wd2 & _ & Hne & _ & ->)
       | (bs & wd1 & img' & wd2 & _ & Hne & _ & ->)]]]; simpl.
  - by repeat constructor.
  - by repeat constructor.
  - by repeat constructor.
  - constructor; [done |]. constructor; [done | apply IH].
Qed.

(** With [max_retries <= 0] the range is empty: [detextify] returns the input
    image without calling the detector or the in-painter. *)
Theorem detextify_no_budget (in_image : Image) (prompt : string) (max_retries : Z)
    (wd : World) :
  max_retries <= 0 ->
  run in_image prompt max_retries wd = mkOutcome (Ok in_image) Exhausted wd [].
Proof.
  intros Hm. unfold run, detextify.
  replace (Z.to_nat max_retries) with O by lia. reflexivity.
Qed.

(** Whatever the two capabilities do, the detector is called at most
    [max_retries] times.  When the range is exhausted both capabilities were
    called [max_retries] times; after a [break] the detector was called once
    more than the in-painter; when an exception passed through, the two
    counts are equal or the detector was called once more. *)
Theorem detextify_call_counts (in_image : Image) (prompt : string) (max_retries : Z)
    (wd : World) :
  let o := run in_image prompt max_retries wd in
  (detect_calls (calls o) <= Z.to_nat max_retries)%nat /\
  match left_by o with
  | Exhausted => detect_calls (calls o) = Z.to_nat max_retries /\
                 inpaint_calls (calls o) = Z.to_nat max_retries
  | Break => detect_calls (calls o) = S (inpaint_calls (calls o))
  | Raised => detect_calls (calls o) = inpaint_calls (calls o) \/
              detect_calls (calls o) = S (inpaint_calls (calls o))
  end.
Proof. apply loop_call_counts. Qed.

(** When the loop is left through [break], the returned image is the image
    of the last call, a detector call that returned no box. *)
Theorem detextify_break_checked (in_image : Image) (prompt : string) (max_retries : Z)
    (wd : World) :
  let o := run in_image prompt max_retries wd in
  left_by o = Break ->
  exists img wd0,
    returned o = Ok img /\
    last (calls o) = Some (DetectCall img) /\
    detect_text img wd0 = (Ok [], final_world o).
Proof. apply loop_break_checked. Qed.

(** When the range is exhausted with [max_retries >= 1], the last call is an
    in-painter call and the returned image is its result: no detector call
    follows the last in-painting. *)
Theorem detextify_exhausted_last_call (in_image : Image) (prompt : string)
    (max_retries : Z) (wd : World) :
  let o := run in_image prompt max_retries wd in
  1 <= max_retries ->
  left_by o = Exhausted ->
  exists img1 bs1 wd1 img,
    last (calls o) = Some (InpaintCall img1 bs1 prompt) /\
    inpaint img1 bs1 prompt wd1 = (Ok img, final_world o) /\
    returned o = Ok img.
Proof.
  intros o Hm. subst o. unfold run, detextify.
  replace (Z.to_nat max_retries) with (S (Z.to_nat (max_retries - 1))) by lia.
  destruct (loop_cases (Z.to_nat (max_retries - 1)) in_image prompt wd)
    as [(e & wd1 & _ & Hl) | [(wd1 & Hd & Hl) | [(bs & wd1 & e & wd2 & _ & _ & _ & Hl)
       | (bs & wd1 & img' & wd2 & _ & _ & Hi & Hl)]]];
    unfold loop in Hl; rewrite Hl; simpl; try done.
  intros He.
  pose proof (loop_exhausted_last_call (Z.to_nat (max_retries - 1))
                in_image bs img' prompt wd2 wd1) as Hex.
  rewrite loop_calls_prefix in Hex. simpl in Hex.
  destruct (Hex Hi He) as (img1 & bs1 & wd1' & img'' & Hlast & Hinp & Hr).
  by exists img1, bs1, wd1', img''.
Qed.

(** Once the loop is left through [break] or by an exception, a larger
    [max_retries] changes nothing: same result, same calls. *)
Theorem detextify_more_retries (in_image : Image) (prompt : string)
    (max_retries max_retries' : Z) (wd : World) :
  left_by (run in_image prompt max_retries wd) <> Exhausted ->
  max_retries <= max_retries' ->
  run in_image prompt max_retries' wd = run in_image prompt max_retries wd.
Proof.
  intros Hl Hle. unfold run, detextify in *.
  replace (Z.to_nat max_retries')
    with (Z.to_nat max_retries + (Z.to_nat max_retries' - Z.to_nat max_retries))%nat
    by lia.
  by apply loop_more_retries.
Qed.

(** The in-painter is never called with an empty list of boxes, and every
    call passes the prompt given to [detextify]. *)
Theorem detextify_inpaint_arguments (in_image : Image) (prompt : string)
    (max_retries : Z) (wd : World) :
  Forall (fun c => match c with
                   | InpaintCall _ bs p => bs <> [] /\ p = prompt
                   | DetectCall _ => True
                   end) (calls (run in_image prompt max_retries wd)).
Proof. apply loop_inpaint_arguments. Qed.

End Loop.

Lemma detextify_no_budget_witness :
  detextify stub_detect stub_inpaint 0%nat "remove text"%string (-3) 0%nat =
  mkOutcome (Ok 0%nat) Exhausted 0%nat [].
Proof.
  apply (detextify_no_budget stub_detect stub_inpaint 0%nat "remove text"%string (-3) 0%nat).
  lia.
Defined.

Lemma detextify_break_checked_witness :
  let o := detextify stub_detect stub_inpaint 0%nat "remove text"%string 5 0%nat in
  exists img wd0,
    returned o = Ok img /\
    last (calls o) = Some (DetectCall img) /\
    stub_detect img wd0 = (Ok [], final_world o).
Proof.
  apply (detextify_break_checked stub_detect stub_inpaint 0%nat "remove text"%string 5 0%nat).
  reflexivity.
Defined.

Lemma detextify_exhausted_last_call_witness :
  let o := detextify stub_detect stub_inpaint 0%nat "remove text"%string 2 0%nat in
  exists img1 bs1 wd1 img,
    last (calls o) = Some (InpaintCall img1 bs1 "remove text"%string) /\
    stub_inpaint img1 bs1 "remove text"%string wd1 = (Ok img, final_world o) /\
    returned o = Ok img.
Proof.
  apply (detextify_exhausted_last_call stub_detect stub_inpaint 0%nat
           "remove text"%string 2 0%nat); [lia | reflexivity].
Defined.

Lemma detextify_more_retries_witness :
  detextify stub_detect stub_inpaint 0%nat "remove text"%string 50 0%nat =
  detextify stub_detect stub_inpaint 0%nat "remove text"%string 3 0%nat.
Proof.
  apply (detextify_more_retries stub_detect stub_inpaint 0%nat "remove text"%string 3 50 0%nat);
    [discriminate | lia].
Defined.

End DetextifierMore.

(** ** Facts about the boxes built from the OCR result *)

Module PaddleFacts.
Import Paddle.

Section Boxes.

Lemma fold_min_spec vs v :
  let m := fold_left (fun m v' => if Qlt_le_dec v' m then v' else m) vs v in
  m ∈ v :: vs /\ forall u, u ∈ v :: vs -> (m <= u)%Q.
Proof.
  revert v. induction vs as [|v' vs IH]; intros v; simpl.
  - split; [apply list_elem_of_here |].
    intros u Hu. apply list_elem_of_singleton in Hu as ->. lra.
  - destruct (Qlt_le_dec v' v) as [Hlt | Hle].
    + destruct (IH v') as [Hin Hmin]. split.
      * by apply list_elem_of_further.
      * intros u Hu. apply elem_of_cons in Hu as [-> | Hu]; [| by apply Hmin].
        pose proof (Hmin v' (list_elem_of_here _ _)). lra.
    + destruct (IH v) as [Hin Hmin]. split.
      * apply elem_of_cons in Hin as [-> | Hin];
          [apply list_elem_of_here | by do 2 apply list_elem_of_further].
      * intros u Hu. apply elem_of_cons in Hu as [-> | Hu];
          [apply Hmin, list_elem_of_here |].
        apply elem_of_cons in Hu as [-> | Hu].
        -- pose proof (Hmin v (list_elem_of_here _ _)). lra.
        -- by apply Hmin, list_elem_of_further.
Qed.

Lemma fold_max_spec vs v :
  let m := fold_left (fun m v' => if Qlt_le_dec m v' then v' else m) vs v in
  m ∈ v :: vs /\ forall u, u ∈ v :: vs -> (u <= m)%Q.
Proof.
  revert v. induction vs as [|v' vs IH]; intros v; simpl.
  - split; [apply list_elem_of_here |].
    intros u Hu. apply list_elem_of_singleton in Hu as ->. lra.
  - destruct (Qlt_le_dec v v') as [Hlt | Hle].
    + destruct (IH v') as [Hin Hmax]. split.
      * by apply list_elem_of_further.
      * intros u Hu. apply elem_of_cons in Hu as [-> | Hu]; [| by apply Hmax].
        pose proof (Hmax v' (list_elem_of_here _ _)). lra.
    + destruct (IH v) as [Hin Hmax]. split.
      * apply elem_of_cons in Hin as [-> | Hin];
          [apply list_elem_of_here | by do 2 apply list_elem_of_further].
      * intros u Hu. apply elem_of_cons in Hu as [-> | Hu];
          [apply Hmax, list_elem_of_here |].
        apply elem_of_cons in Hu as [-> | Hu].
        -- pose proof (Hmax v (list_elem_of_here _ _)). lra.
        -- by apply Hmax, list_elem_of_further.
Qed.

(** A line with a non-empty polygon always gives a box: the branch that
    would use the unbound logger is never taken. *)
Lemma box_of_line_nonempty pad_size image_height image_width p ps txt :
  exists tl_y tl_x max_y max_x,
    least tl_y (fst <$> p :: ps) /\ least tl_x (snd <$> p :: ps) /\
    greatest max_y (fst <$> p :: ps) /\ greatest max_x (snd <$> p :: ps) /\
    box_of_line pad_size image_height image_width (p :: ps, txt) =
    Ok (if Z.eqb pad_size 0 then plain_box tl_y tl_x max_y max_x txt
        else padded_box pad_size image_height image_width tl_y tl_x max_y max_x txt).
Proof.
  pose proof (fold_min_spec (fst <$> ps) p.1) as Hy.
  pose proof (fold_min_spec (snd <$> ps) p.2) as Hx.
  pose proof (fold_max_spec (fst <$> ps) p.1) as Hy'.
  pose proof (fold_max_spec (snd <$> ps) p.2) as Hx'.
  simpl in Hy, Hx, Hy', Hx'.
  eexists _, _, _, _. split; [exact Hy |]. split; [exact Hx |].
  split; [exact Hy' |]. split; [exact Hx' |].
  unfold box_of_line. cbn [fst snd]. rewrite !fmap_cons.
  cbn [py_min py_max lift mbind result_bind].
  destruct Hy as [Hyin Hymin]. destruct Hy' as [Hyin' Hymax].
  destruct Hx as [Hxin Hxmin]. destruct Hx' as [Hxin' Hxmax].
  pose proof (Hymin _ Hyin') as Hyle. pose proof (Hxmin _ Hxin') as Hxle.
  destruct (Qlt_le_dec _ 0) as [Hneg | _]; [lra |].
  destruct (Qlt_le_dec _ 0) as [Hneg | _]; [lra |].
  by destruct (pad_size =? 0).
Qed.

Lemma box_of_line_empty pad_size image_height image_width txt :
  box_of_line pad_size image_height image_width ([], txt) = Raise (Builtin ValueError).
Proof. reflexivity. Qed.

Lemma box_of_line_text pad_size image_height image_width ln b :
  box_of_line pad_size image_height image_width ln = Ok b -> text b = Some ln.2.
Proof.
  destruct ln as [[|p ps] txt]; [done |].
  destruct (box_of_line_nonempty pad_size image_height image_width p ps txt)
    as (tl_y & tl_x & max_y & max_x & _ & _ & _ & _ & ->).
  intros [= <-]. by destruct (pad_size =? 0).
Qed.

Lemma box_of_line_outcome pad_size image_height image_width (ln : line) :
  (ln.1 = [] /\
   box_of_line pad_size image_height image_width ln = Raise (Builtin ValueError)) \/
  (ln.1 <> [] /\ exists b, box_of_line pad_size image_height image_width ln = Ok b).
Proof.
  destruct ln as [[|p ps] txt]; [by left | right].
  split; [done |].
  destruct (box_of_line_nonempty pad_size image_height image_width p ps txt)
    as (tl_y & tl_x & max_y & max_x & _ & _ & _ & _ & ->). eauto.
Qed.

(** [int] of a nonnegative number is its floor. *)
Lemma py_int_floor q :
  (0 <= q)%Q ->
  0 <= py_int q /\ (inject_Z (py_int q) <= q)%Q /\
  forall z, (inject_Z z <= q)%Q -> z <= py_int q.
Proof.
  destruct q as [n d]. unfold Qle, py_int, inject_Z. simpl. intros Hq.
  assert (Hn : 0 <= n) by lia.
  rewrite Z.quot_div_nonneg by lia.
  split; [apply Z.div_pos; lia |]. split.
  - rewrite Z.mul_1_r, Z.mul_comm. apply Z.mul_div_le. lia.
  - intros z Hz. apply Z.div_le_lower_bound; lia.
Qed.

(** [int] of a number that has an integer value is that integer. *)
Lemma py_int_inject q z : (q == inject_Z z)%Q -> py_int q = z.
Proof.
  destruct q as [n d]. unfold Qeq, py_int, inject_Z. simpl. intros Hq.
  replace n with (z * Z.pos d) by lia. apply Z.quot_mul. lia.
Qed.

Lemma py_max2_spec a b :
  (a <= py_max2 a b)%Q /\ (b <= py_max2 a b)%Q /\ (py_max2 a b = a \/ py_max2 a b = b).
Proof. unfold py_max2. destruct (Qlt_le_dec a b); repeat split; auto; lra. Qed.

Lemma py_min2_spec a b :
  (py_min2 a b <= a)%Q /\ (py_min2 a b <= b)%Q /\ (py_min2 a b = a \/ py_min2 a b = b).
Proof. unfold py_min2. destruct (Qlt_le_dec b a); repeat split; auto; lra. Qed.

(** Two nonnegative lengths that fit into an integer extent still fit after
    truncation. *)
Lemma truncated_fit q1 q2 extent :
  (0 <= q1)%Q -> (0 <= q2)%Q -> (q1 + q2 <= inject_Z extent)%Q ->
  0 <= py_int q1 /\ 0 <= py_int q2 /\ py_int q1 + py_int q2 <= extent.
Proof.
  intros H1 H2 Hfit.
  destruct (py_int_floor q1 H1) as (Hn1 & Hle1 & _).
  destruct (py_int_floor q2 H2) as (Hn2 & Hle2 & _).
  split; [done |]. split; [done |].
  rewrite Zle_Qle, inject_Z_plus. lra.
Qed.

(** One axis of the box of a polygon that lies within the image. *)
Lemma axis_inside pad_size extent tl mx :
  0 <= pad_size ->
  (0 <= tl)%Q -> (tl <= mx)%Q -> (mx <= inject_Z extent)%Q ->
  let tl' := py_max2 0 (tl - inject_Z pad_size) in
  let len' := py_min2 (mx - tl + inject_Z pad_size) (inject_Z extent - tl') in
  (0 <= py_int tl /\ 0 <= py_int (mx - tl) /\ py_int tl + py_int (mx - tl) <= extent) /\
  (0 <= py_int tl' /\ 0 <= py_int len' /\ py_int tl' + py_int len' <= extent).
Proof.
  intros Hp H0 Hle Hmx tl' len'.
  assert (Hpad : (0 <= inject_Z pad_size)%Q)
    by (change 0%Q with (inject_Z 0); by rewrite <- Zle_Qle).
  split; [apply truncated_fit; lra |].
  destruct (py_max2_spec 0 (tl - inject_Z pad_size)) as (Ha & Hb & Hc).
  destruct (py_min2_spec (mx - tl + inject_Z pad_size) (inject_Z extent - tl'))
    as (Hd & He & Hf).
  fold tl' in Ha, Hb, Hc. fold len' in Hd, He, Hf.
  assert (Htl' : (tl' <= tl)%Q) by (destruct Hc as [-> | ->]; lra).
  apply truncated_fit; [lra | | lra].
  destruct Hf as [-> | ->]; lra.
Qed.

Lemma least_bounds m l lo hi :
  least m l -> Forall (fun u => (lo <= u)%Q /\ (u <= hi)%Q) l -> (lo <= m)%Q /\ (m <= hi)%Q.
Proof. intros [Hin _] Hall. rewrite Forall_forall in Hall. by apply Hall. Qed.

Lemma greatest_bounds m l lo hi :
  greatest m l -> Forall (fun u => (lo <= u)%Q /\ (u <= hi)%Q) l -> (lo <= m)%Q /\ (m <= hi)%Q.
Proof. intros [Hin _] Hall. rewrite Forall_forall in Hall. by apply Hall. Qed.

Lemma least_le_greatest m m' l : least m l -> greatest m' l -> (m <= m')%Q.
Proof. intros [_ Hmin] [Hin _]. by apply Hmin. Qed.

Lemma box_of_line_inside pad_size image_height image_width ln b :
  0 <= pad_size ->
  polygon_inside image_height image_width ln ->
  box_of_line pad_size image_height image_width ln = Ok b ->
  box_inside image_height image_width b.
Proof.
  intros Hp Hin. destruct ln as [[|p ps] txt]; [done |].
  destruct (box_of_line_nonempty pad_size image_height image_width p ps txt)
    as (tl_y & tl_x & max_y & max_x & Hy & Hx & Hy' & Hx' & ->).
  intros [= <-]. unfold polygon_inside in Hin. cbn [fst] in Hin.
  assert (Hys : Forall (fun u => (0 <= u)%Q /\ (u <= inject_Z image_height)%Q)
                       (fst <$> p :: ps)).
  { apply Forall_fmap. eapply Forall_impl; [exact Hin |]. by intros ? (? & ? & _). }
  assert (Hxs : Forall (fun u => (0 <= u)%Q /\ (u <= inject_Z image_width)%Q)
                       (snd <$> p :: ps)).
  { apply Forall_fmap. eapply Forall_impl; [exact Hin |]. by intros ? (_ & _ & ? & ?). }
  destruct (least_bounds _ _ _ _ Hy Hys) as [Hy0 _].
  destruct (greatest_bounds _ _ _ _ Hy' Hys) as [_ Hy1].
  destruct (least_bounds _ _ _ _ Hx Hxs) as [Hx0 _].
  destruct (greatest_bounds _ _ _ _ Hx' Hxs) as [_ Hx1].
  pose proof (least_le_greatest _ _ _ Hy Hy') as Hyle.
  pose proof (least_le_greatest _ _ _ Hx Hx') as Hxle.
  destruct (axis_inside pad_size image_height tl_y max_y Hp Hy0 Hyle Hy1)
    as [(? & ? & ?) (? & ? & ?)].
  destruct (axis_inside pad_size image_width tl_x max_x Hp Hx0 Hxle Hx1)
    as [(? & ? & ?) (? & ? & ?)].
  unfold box_inside, valid_box.
  destruct (pad_size =? 0); simpl; repeat split; done.
Qed.

(** [detect_text] returns one box per line, in order, each labelled with the
    text of its line. *)
Theorem detect_text_labels (pad_size image_height image_width : Z)
    (ocr_result : list line) (boxes : list TextBox) :
  detect_text pad_size image_height image_width ocr_result = Ok boxes ->
  text <$> boxes = (fun ln : line => Some ln.2) <$> ocr_result.
Proof.
  unfold detect_text. revert boxes.
  induction ocr_result as [|ln r IH]; intros boxes; simpl.
  - by intros [= <-].
  - destruct (box_of_line pad_size image_height image_width ln) as [b | e] eqn:Hb;
      [| done].
    cbn [mbind result_bind].
    destruct (rmap (box_of_line pad_size image_height image_width) r) as [bs | e];
      [| done].
    cbn [mbind result_bind]. intros [= <-].
    rewrite fmap_cons, (IH bs eq_refl). f_equal.
    by eapply box_of_line_text.
Qed.

(** [detect_text] returns boxes exactly when every polygon has a point;
    otherwise [min] of an empty list raises [ValueError].  The call on the
    unbound logger is never reached, because the height and width computed
    from a non-empty polygon are never negative. *)
Theorem detect_text_outcome (pad_size image_height image_width : Z)
    (ocr_result : list line) :
  match detect_text pad_size image_height image_width ocr_result with
  | Ok boxes => Forall (fun ln : line => ln.1 <> []) ocr_result
  | Raise e => e = Builtin ValueError /\ Exists (fun ln : line => ln.1 = []) ocr_result
  end.
Proof.
  unfold detect_text. induction ocr_result as [|ln r IH]; simpl; [constructor |].
  destruct (box_of_line_outcome pad_size image_height image_width ln)
    as [[Hnil ->] | [Hne [b ->]]]; cbn [mbind result_bind].
  - split; [done | by constructor].
  - destruct (rmap (box_of_line pad_size image_height image_width) r) as [bs | e];
      cbn [mbind result_bind].
    + by constructor.
    + destruct IH as [-> Hex]. split; [done | by apply Exists_cons_tl].
Qed.

(** With a nonnegative [pad_size] and polygons that lie within the image,
    every returned box lies within the image and has nonnegative height and
    width. *)
Theorem detect_text_inside_image (pad_size image_height image_width : Z)
    (ocr_result : list line) (boxes : list TextBox) :
  0 <= pad_size ->
  Forall (polygon_inside image_height image_width) ocr_result ->
  detect_text pad_size image_height image_width ocr_result = Ok boxes ->
  Forall (box_inside image_height image_width) boxes.
Proof.
  intros Hp. unfold detect_text. revert boxes.
  induction ocr_result as [|ln r IH]; intros boxes Hall; simpl.
  - intros [= <-]. constructor.
  - apply Forall_cons in Hall as [Hln Hall].
    destruct (box_of_line pad_size image_height image_width ln) as [b | e] eqn:Hb;
      [| done].
    cbn [mbind result_bind].
    destruct (rmap (box_of_line pad_size image_height image_width) r) as [bs | e];
      [| done].
    cbn [mbind result_bind]. intros [= <-]. constructor.
    + by eapply box_of_line_inside.
    + by apply IH.
Qed.

Lemma least_eq m l lo :
  least m l -> Forall (fun u => (lo <= u)%Q) l -> Exists (fun u => (u == lo)%Q) l ->
  (m == lo)%Q.
Proof.
  intros [Hin Hmin] Hall Hex. rewrite Forall_forall in Hall.
  apply Exists_exists in Hex as (u & Hu & He).
  pose proof (Hmin u Hu). pose proof (Hall m Hin). lra.
Qed.

Lemma greatest_eq m l hi :
  greatest m l -> Forall (fun u => (u <= hi)%Q) l -> Exists (fun u => (u == hi)%Q) l ->
  (m == hi)%Q.
Proof.
  intros [Hin Hmax] Hall Hex. rewrite Forall_forall in Hall.
  apply Exists_exists in Hex as (u & Hu & He).
  pose proof (Hmax u Hu). pose proof (Hall m Hin). lra.
Qed.

Lemma inject_Z_sub a b : (inject_Z (a - b) == inject_Z a - inject_Z b)%Q.
Proof. unfold Z.sub. rewrite inject_Z_plus, inject_Z_opp. lra. Qed.

(** One axis of a polygon with integer bounds [lo] and [hi], away from the
    image border: without padding the box starts at [lo] and has length
    [hi - lo]; with padding it starts at [lo - pad_size] and has length
    [hi - lo + pad_size]. *)
Lemma axis_integer pad_size extent tl mx lo hi :
  (tl == inject_Z lo)%Q -> (mx == inject_Z hi)%Q ->
  0 < pad_size -> pad_size <= lo -> lo <= hi -> hi <= extent ->
  let tl' := py_max2 0 (tl - inject_Z pad_size) in
  py_int tl = lo /\ py_int (mx - tl) = hi - lo /\
  py_int tl' = lo - pad_size /\
  py_int (py_min2 (mx - tl + inject_Z pad_size) (inject_Z extent - tl'))
  = hi - lo + pad_size.
Proof.
  intros Htl Hmx Hp Hlo Hlh Hhi tl'.
  assert (Hp' : (0 < inject_Z pad_size)%Q)
    by (change 0%Q with (inject_Z 0); by rewrite <- Zlt_Qlt).
  assert (Hlo' : (inject_Z pad_size <= inject_Z lo)%Q) by by rewrite <- Zle_Qle.
  assert (Hhi' : (inject_Z hi <= inject_Z extent)%Q) by by rewrite <- Zle_Qle.
  assert (Htl' : (tl' == inject_Z lo - inject_Z pad_size)%Q).
  { destruct (py_max2_spec 0 (tl - inject_Z pad_size)) as (Ha & Hb & Hc).
    fold tl' in Ha, Hb, Hc. destruct Hc as [Hc | Hc]; rewrite Hc in *; lra. }
  split; [by apply py_int_inject |]. split.
  { apply py_int_inject. rewrite inject_Z_sub. lra. }
  split.
  { apply py_int_inject. rewrite inject_Z_sub. lra. }
  apply py_int_inject.
  destruct (py_min2_spec (mx - tl + inject_Z pad_size) (inject_Z extent - tl'))
    as (Hd & He & Hf).
  rewrite inject_Z_plus, inject_Z_sub.
  destruct Hf as [Hf | Hf]; rewrite Hf in *; lra.
Qed.

(** Away from the image border the padding moves the top-left corner by
    [pad_size] and makes the box [pad_size] higher and wider, so the bottom
    and right edges stay where they are without padding: the margin is added
    at the top and at the left only. *)
Theorem padding_extends_top_left (pad_size image_height image_width : Z)
    (pts : list (Q * Q)) (txt : string) (y0 y1 x0 x1 : Z) :
  integer_bounds pts y0 y1 x0 x1 ->
  0 < pad_size -> pad_size <= y0 -> pad_size <= x0 ->
  y1 <= image_height -> x1 <= image_width ->
  box_of_line 0 image_height image_width (pts, txt) =
    Ok (mkTextBox y0 x0 (y1 - y0) (x1 - x0) (Some txt)) /\
  box_of_line pad_size image_height image_width (pts, txt) =
    Ok (mkTextBox (y0 - pad_size) (x0 - pad_size)
                  (y1 - y0 + pad_size) (x1 - x0 + pad_size) (Some txt)).
Proof.
  intros (Hall & Hy0 & Hy1 & Hx0 & Hx1) Hp Hpy Hpx Hh Hw.
  destruct pts as [|p ps]; [by apply Exists_nil in Hy0 |].
  assert (Hbounds : forall tl_y tl_x max_y max_x,
            least tl_y (fst <$> p :: ps) -> least tl_x (snd <$> p :: ps) ->
            greatest max_y (fst <$> p :: ps) -> greatest max_x (snd <$> p :: ps) ->
            (tl_y == inject_Z y0)%Q /\ (tl_x == inject_Z x0)%Q /\
            (max_y == inject_Z y1)%Q /\ (max_x == inject_Z x1)%Q).
  { intros tl_y tl_x max_y max_x Hly Hlx Hgy Hgx. repeat split.
    - apply (least_eq _ _ _ Hly); [apply Forall_fmap | apply Exists_fmap; exact Hy0].
      eapply Forall_impl; [exact Hall |]. by intros ? (? & _).
    - apply (least_eq _ _ _ Hlx); [apply Forall_fmap | apply Exists_fmap; exact Hx0].
      eapply Forall_impl; [exact Hall |]. by intros ? (_ & _ & ? & _).
    - apply (greatest_eq _ _ _ Hgy); [apply Forall_fmap | apply Exists_fmap; exact Hy1].
      eapply Forall_impl; [exact Hall |]. by intros ? (_ & ? & _).
    - apply (greatest_eq _ _ _ Hgx); [apply Forall_fmap | apply Exists_fmap; exact Hx1].
      eapply Forall_impl; [exact Hall |]. by intros ? (_ & _ & _ & ?). }
  assert (Hyle : y0 <= y1).
  { apply Exists_exists in Hy0 as (pt & Hpt & He). rewrite Forall_forall in Hall.
    destruct (Hall pt Hpt) as (_ & Hle & _). rewrite Zle_Qle. lra. }
  assert (Hxle : x0 <= x1).
  { apply Exists_exists in Hx0 as (pt & Hpt & He). rewrite Forall_forall in Hall.
    destruct (Hall pt Hpt) as (_ & _ & _ & Hle). rewrite Zle_Qle. lra. }
  split.
  - destruct (box_of_line_nonempty 0 image_height image_width p ps txt)
      as (tl_y & tl_x & max_y & max_x & Hly & Hlx & Hgy & Hgx & ->).
    destruct (Hbounds _ _ _ _ Hly Hlx Hgy Hgx) as (Ey0 & Ex0 & Ey1 & Ex1).
    destruct (axis_integer pad_size image_height tl_y max_y y0 y1 Ey0 Ey1 Hp Hpy Hyle Hh)
      as (Ha & Hb & _).
    destruct (axis_integer pad_size image_width tl_x max_x x0 x1 Ex0 Ex1 Hp Hpx Hxle Hw)
      as (Hc & Hd & _).
    simpl. unfold plain_box. by rewrite Ha, Hb, Hc, Hd.
  - destruct (box_of_line_nonempty pad_size image_height image_width p ps txt)
      as (tl_y & tl_x & max_y & max_x & Hly & Hlx & Hgy & Hgx & ->).
    destruct (Hbounds _ _ _ _ Hly Hlx Hgy Hgx) as (Ey0 & Ex0 & Ey1 & Ex1).
    destruct (axis_integer pad_size image_height tl_y max_y y0 y1 Ey0 Ey1 Hp Hpy Hyle Hh)
      as (_ & _ & Ha & Hb).
    destruct (axis_integer pad_size image_width tl_x max_x x0 x1 Ex0 Ex1 Hp Hpx Hxle Hw)
      as (_ & _ & Hc & Hd).
    destruct (Z.eqb_spec pad_size 0) as [-> | _]; [lia |].
    unfold padded_box. by rewrite Ha, Hb, Hc, Hd.
Qed.

(** One axis of a padded box: with [pad_size >= 1] and an extent of at least
    1 the length is at least 1. *)
Lemma axis_positive pad_size extent tl mx :
  1 <= pad_size -> 1 <= extent ->
  (0 <= tl)%Q -> (tl <= mx)%Q -> (mx <= inject_Z extent)%Q ->
  let tl' := py_max2 0 (tl - inject_Z pad_size) in
  1 <= py_int (py_min2 (mx - tl + inject_Z pad_size) (inject_Z extent - tl')).
Proof.
  intros Hp He H0 Hle Hmx tl'.
  assert (Hp' : (1 <= inject_Z pad_size)%Q)
    by (change 1%Q with (inject_Z 1); by rewrite <- Zle_Qle).
  assert (He' : (1 <= inject_Z extent)%Q)
    by (change 1%Q with (inject_Z 1); by rewrite <- Zle_Qle).
  destruct (py_max2_spec 0 (tl - inject_Z pad_size)) as (Ha & Hb & Hc).
  destruct (py_min2_spec (mx - tl + inject_Z pad_size) (inject_Z extent - tl'))
    as (Hd & Hf & Hg).
  fold tl' in Ha, Hb, Hc.
  set (len' := py_min2 _ _) in *.
  assert (Hlen : (1 <= len')%Q).
  { destruct Hg as [-> | ->]; [lra |]. destruct Hc as [-> | ->]; lra. }
  apply py_int_floor; [lra |]. by change (inject_Z 1) with 1%Q.
Qed.

Lemma box_of_line_positive pad_size image_height image_width ln b :
  1 <= pad_size -> 1 <= image_height -> 1 <= image_width ->
  polygon_inside image_height image_width ln ->
  box_of_line pad_size image_height image_width ln = Ok b ->
  1 <= h b /\ 1 <= w b.
Proof.
  intros Hp Hh Hw Hin. destruct ln as [[|p ps] txt]; [done |].
  destruct (box_of_line_nonempty pad_size image_height image_width p ps txt)
    as (tl_y & tl_x & max_y & max_x & Hy & Hx & Hy' & Hx' & ->).
  intros [= <-]. unfold polygon_inside in Hin. cbn [fst] in Hin.
  assert (Hys : Forall (fun u => (0 <= u)%Q /\ (u <= inject_Z image_height)%Q)
                       (fst <$> p :: ps)).
  { apply Forall_fmap. eapply Forall_impl; [exact Hin |]. by intros ? (? & ? & _). }
  assert (Hxs : Forall (fun u => (0 <= u)%Q /\ (u <= inject_Z image_width)%Q)
                       (snd <$> p :: ps)).
  { apply Forall_fmap. eapply Forall_impl; [exact Hin |]. by intros ? (_ & _ & ? & ?). }
  destruct (least_bounds _ _ _ _ Hy Hys) as [Hy0 _].
  destruct (greatest_bounds _ _ _ _ Hy' Hys) as [_ Hy1].
  destruct (least_bounds _ _ _ _ Hx Hxs) as [Hx0 _].
  destruct (greatest_bounds _ _ _ _ Hx' Hxs) as [_ Hx1].
  pose proof (least_le_greatest _ _ _ Hy Hy') as Hyle.
  pose proof (least_le_greatest _ _ _ Hx Hx') as Hxle.
  destruct (Z.eqb_spec pad_size 0) as [-> | _]; [lia |].
  unfold padded_box. simpl. split.
  - by apply axis_positive.
  - by apply axis_positive.
Qed.

(** With [pad_size >= 1], [image_height >= 1] and [image_width >= 1], for
    polygons whose points all have [0 <= point[0] <= image_height] and
    [0 <= point[1] <= image_width], every box that [detect_text] returns has
    height and width of at least 1, and [merge_nearby_boxes] with any
    positive [max_distance] returns on these boxes within [2 * len(boxes)]
    passes. *)
Theorem detect_text_then_merge (pad_size image_height image_width : Z)
    (ocr_result : list line) (boxes : list TextBox) (max_distance : Z) :
  1 <= pad_size -> 1 <= image_height -> 1 <= image_width ->
  Forall (polygon_inside image_height image_width) ocr_result ->
  detect_text pad_size image_height image_width ocr_result = Ok boxes ->
  0 < max_distance ->
  Forall (fun b => 1 <= h b /\ 1 <= w b) boxes /\
  exists res,
    merge_nearby_boxes (2 * length boxes) boxes max_distance = Some (Ok res).
Proof.
  intros Hp Hh Hw Hall Hdet Hd.
  assert (Hpos : Forall (fun b => 1 <= h b /\ 1 <= w b) boxes).
  { unfold detect_text in Hdet. revert boxes Hdet.
    induction ocr_result as [|ln r IH]; intros boxes; simpl.
    - intros [= <-]. constructor.
    - apply Forall_cons in Hall as [Hln Hall].
      destruct (box_of_line pad_size image_height image_width ln) as [b | e] eqn:Hb;
        [| done].
      cbn [mbind result_bind].
      destruct (rmap (box_of_line pad_size image_height image_width) r) as [bs | e];
        [| done].
      cbn [mbind result_bind]. intros [= <-]. constructor; [| by apply IH].
      exact (box_of_line_positive _ _ _ _ _ Hp Hh Hw Hln Hb). }
  split; [done |].
  apply merge_nearby_boxes_terminates.
  eapply Forall_impl; [exact Hpos |].
  intros b [Hbh Hbw]. apply should_merge_true.
  rewrite overlap_x_self, overlap_y_self. lia.
Qed.

(** [int] of a number that is at most [-1] is at most [-1]. *)
Lemma py_int_negative q : (q <= inject_Z (-1))%Q -> py_int q <= -1.
Proof.
  destruct q as [n d]. unfold Qle, py_int, inject_Z. simpl. intros Hq.
  assert (Hn : n <= - Z.pos d) by lia.
  replace n with (- (- n)) by lia. rewrite Z.quot_opp_l by lia.
  rewrite Z.quot_div_nonneg by lia.
  assert (1 <= - n / Z.pos d) by (apply Z.div_le_lower_bound; lia). lia.
Qed.

(** The height is clamped with [image_height - tl_y] also when the corner
    lies beyond [image_height]: with [pad_size >= 1] and [image_height >= 0],
    a polygon whose values [point[0]] are all at least
    [image_height + pad_size + 1] gets a box with a height of at most [-1]. *)
Theorem clamped_height_negative (pad_size image_height image_width : Z)
    (ln : line) (b : TextBox) :
  1 <= pad_size -> 0 <= image_height ->
  Forall (fun pt : Q * Q => (inject_Z (image_height + pad_size + 1) <= pt.1)%Q) ln.1 ->
  box_of_line pad_size image_height image_width ln = Ok b ->
  h b <= -1.
Proof.
  intros Hp Hh Hall. destruct ln as [[|p ps] txt]; [done |].
  destruct (box_of_line_nonempty pad_size image_height image_width p ps txt)
    as (tl_y & tl_x & max_y & max_x & Hy & Hx & Hy' & Hx' & ->).
  intros [= <-]. cbn [fst] in Hall.
  destruct (Z.eqb_spec pad_size 0) as [-> | _]; [lia |].
  unfold padded_box. cbn [h].
  assert (Hp' : (1 <= inject_Z pad_size)%Q)
    by (change 1%Q with (inject_Z 1); by rewrite <- Zle_Qle).
  assert (Hh' : (0 <= inject_Z image_height)%Q)
    by (change 0%Q with (inject_Z 0); by rewrite <- Zle_Qle).
  assert (Htl : (inject_Z image_height + inject_Z pad_size + 1 <= tl_y)%Q).
  { destruct Hy as [Hin _]. apply list_elem_of_fmap in Hin as (pt & -> & Hpt).
    rewrite Forall_forall in Hall. specialize (Hall pt Hpt).
    rewrite !inject_Z_plus in Hall. by change (inject_Z 1) with 1%Q in Hall. }
  pose proof (least_le_greatest _ _ _ Hy Hy') as Hyle.
  destruct (py_max2_spec 0 (tl_y - inject_Z pad_size)) as (Ha & Hb & Hc).
  set (tl' := py_max2 0 (tl_y - inject_Z pad_size)) in *.
  destruct (py_min2_spec (max_y - tl_y + inject_Z pad_size) (inject_Z image_height - tl'))
    as (Hd & He & Hf).
  apply py_int_negative. change (inject_Z (-1)) with (-1)%Q. lra.
Qed.

End Boxes.

Lemma detect_text_labels_witness :
  exists boxes,
    detect_text 5 100 200 sample_result = Ok boxes /\
    text <$> boxes = [Some "Hello"%string; Some "world"%string].
Proof.
  eexists. split; [vm_compute; reflexivity |].
  apply (detect_text_labels 5 100 200 sample_result). vm_compute. reflexivity.
Defined.

Lemma sample_result_inside : Forall (polygon_inside 100 200) sample_result.
Proof.
  repeat constructor; unfold Qle; simpl; lia.
Qed.

Lemma detect_text_inside_image_witness :
  exists boxes,
    detect_text 5 100 200 sample_result = Ok boxes /\
    Forall (box_inside 100 200) boxes.
Proof.
  eexists. split; [vm_compute; reflexivity |].
  apply (detect_text_inside_image 5 100 200 sample_result);
    [lia | exact sample_result_inside | vm_compute; reflexivity].
Defined.

Lemma padding_extends_top_left_witness :
  let pts := [(10 # 1, 20 # 1); (10 # 1, 60 # 1); (30 # 1, 60 # 1); (30 # 1, 20 # 1)]%Q in
  box_of_line 0 100 200 (pts, "Hello"%string) =
    Ok (mkTextBox 10 20 (30 - 10) (60 - 20) (Some "Hello"%string)) /\
  box_of_line 5 100 200 (pts, "Hello"%string) =
    Ok (mkTextBox (10 - 5) (20 - 5) (30 - 10 + 5) (60 - 20 + 5) (Some "Hello"%string)).
Proof.
  intros pts.
  apply (padding_extends_top_left 5 100 200 pts "Hello"%string 10 30 20 60); try lia.
  unfold integer_bounds. split; [| split; [| split; [| split]]].
  - repeat constructor; unfold Qle; simpl; lia.
  - apply Exists_cons_hd. reflexivity.
  - do 2 apply Exists_cons_tl. apply Exists_cons_hd. reflexivity.
  - apply Exists_cons_hd. reflexivity.
  - apply Exists_cons_tl. apply Exists_cons_hd. reflexivity.
Defined.

Lemma detect_text_then_merge_witness :
  let boxes := [mkTextBox 5 15 25 45 (Some "Hello"%string);
                mkTextBox 15 15 26 65 (Some "world"%string)] in
  detect_text 5 100 200 sample_result = Ok boxes /\
  Forall (fun b => 1 <= h b /\ 1 <= w b) boxes /\
  exists res, merge_nearby_boxes (2 * length boxes) boxes 10 = Some (Ok res).
Proof.
  intros boxes. split; [vm_compute; reflexivity |].
  apply (detect_text_then_merge 5 100 200 sample_result boxes 10); try lia;
    [exact sample_result_inside | vm_compute; reflexivity].
Defined.

Lemma clamped_height_negative_witness :
  h (mkTextBox 120 10 (-20) 50 (Some "right"%string)) <= -1.
Proof.
  apply (clamped_height_negative 30 100 200
           ([(150 # 1, 40 # 1); (190 # 1, 60 # 1)]%Q, "right"%string)
           (mkTextBox 120 10 (-20) 50 (Some "right"%string)));
    [lia | lia | | vm_compute; reflexivity].
  repeat constructor; unfold Qle; simpl; lia.
Defined.

End PaddleFacts.

(** ** The detection score on doubles *)

Module Float64Facts.
Import Float64.

Section Order.





End Order.

Section Aggregation.











End Aggregation.

Section Rounding.








End Rounding.

Section Values.





End Values.

(** Two quotients that differ as rationals and round to the same double:
    the detected box ties with both gold boxes, both indices are matched and
    no zero is recorded. *)
Lemma score_counts_rounded_ties (np_mean : list float -> float) :
  let detected := [mkTextBox 0 0 11999 15999 None] in
  let gold := [mkTextBox 3478 3082 18298 19810 None;
               mkTextBox 4453 4623 10866 22130 None] in
  (110087196 * 240497577 <> 85862219 * 554521489) /\
  multi_intersection_over_union np_mean detected gold =
  Ok (np_mean [S754_finite false 8924399627890330 (-55)]).
Proof.
  split; [by vm_compute | vm_compute; reflexivity].
Qed.



End Float64Facts.
